(** * Foxhound transforms: a shallow embedding of [foxhound/transforms.py]

    The module is Python 2 code on top of numpy (implicit relative imports,
    [map] returning a list).  Python values are embedded as follows:

    - Python [int] tokens, offsets and sizes are [Z]; lengths ([len]) are
      [nat], so that [max_len - seq_len] (never negative in the source) and
      [[0] * n_pad] read as [replicate];
    - Python [str] is [string], a list of strings is [list string];
    - a raised exception is the [Raise] branch of [result]; the exception
      classes are the ones the interpreter and numpy raise;
    - a 2-D numpy array is an [ndarray]: its [shape] and its rows.  The
      shape is kept apart from the rows because numpy keeps it for empty
      arrays too (an array of shape (0, 3) has no rows but three columns). *)

From stdpp Require Import base list strings gmap.
From Stdlib Require Import ZArith QArith Lia Lqa.

Local Open Scope Z_scope.

(** ** Exceptions and the error monad *)

Inductive exn : Set :=
| ValueError
| IndexError
| NameError
| TypeError.

Inductive result (A : Type) : Type :=
| Ok (a : A)
| Raise (e : exn).
Arguments Ok {A} a.
Arguments Raise {A} e.

#[global] Instance result_ret : MRet result := fun A a => Ok a.
#[global] Instance result_bind : MBind result := fun A B f m =>
  match m with
  | Ok a => f a
  | Raise e => Raise e
  end.
#[global] Instance result_fmap : FMap result := fun A B f m =>
  match m with
  | Ok a => Ok (f a)
  | Raise e => Raise e
  end.

#[global] Instance exn_eq_dec : EqDecision exn.
Proof. solve_decision. Defined.

(** The design-level error taxonomy of the specification has one class for
    rejected arguments, [InvalidInputError] (empty collections, out-of-range
    indices).  In the Python source these are the built-in [ValueError]
    (a value outside the accepted domain, e.g. [max] of an empty list or an
    empty [randint] range) and [IndexError] (an index outside an axis). *)
Definition InvalidInputError (e : exn) : bool :=
  match e with
  | ValueError | IndexError => true
  | NameError | TypeError => false
  end.

(** [for x in X: ...; Xt.append(f(x))] with a body that may raise. *)
Fixpoint for_each {A B} (f : A → result B) (X : list A) : result (list B) :=
  match X with
  | [] => Ok []
  | x :: X' =>
      y ← f x;
      Xt ← for_each f X';
      Ok (y :: Xt)
  end.

(** ** numpy arrays *)

Record ndarray (A : Type) : Type := mk_ndarray {
  shape : nat * nat;
  rows : list (list A)
}.
Arguments mk_ndarray {A} shape rows.
Arguments shape {A} n.
Arguments rows {A} n.

(** A dense array: as many rows as [shape] says, each as long as it says. *)
Definition dense {A} (a : ndarray A) : Prop :=
  length (rows a) = (shape a).1 ∧
  Forall (λ r, length r = (shape a).2) (rows a).

(** What [np.asarray] makes of a list of lists: a 2-D array when the list
    is not empty and its items have one length, else a 1-D array of its
    items (no item at all, or list objects of differing lengths). *)
Inductive array (A : Type) : Type :=
| Arr1D (items : list (list A))
| Arr2D (a : ndarray A).
Arguments Arr1D {A} items.
Arguments Arr2D {A} a.

Definition rectangular {A} (m : nat) (l : list (list A)) : bool :=
  forallb (λ r, Nat.eqb (length r) m) l.

Definition np_asarray {A} (l : list (list A)) : array A :=
  match l with
  | [] => Arr1D []
  | r :: _ =>
      if rectangular (length r) l
      then Arr2D (mk_ndarray (length l, length r) l)
      else Arr1D l
  end.

(** Column [j] of a list of rows. *)
Definition column {A} (j : nat) (l : list (list A)) : list A :=
  omap (λ r, r !! j) l.

(** [a.transpose(1, 0)]: the axes must match the array's two dimensions. *)
Definition transpose {A} (a : ndarray A) : ndarray A :=
  mk_ndarray ((shape a).2, (shape a).1)
             ((λ i, column i (rows a)) <$> seq 0 (shape a).2).

Definition transpose_1_0 {A} (a : array A) : result (ndarray A) :=
  match a with
  | Arr1D _ => Raise ValueError
  | Arr2D a => Ok (transpose a)
  end.

(** ** Built-ins *)

(** [max(lens)]: raises [ValueError] on an empty sequence. *)
Definition py_max (l : list nat) : result nat :=
  match l with
  | [] => Raise ValueError
  | x :: l' => Ok (foldl Nat.max x l')
  end.

(** ** SeqPadded *)

(** The sentinel the source pads with. *)
Definition PAD : Z := 0.

(** One turn of the loop of [SeqPadded]. *)
Definition pad_seq (placement : string) (max_len : nat)
    (seq : list Z) (seq_len : nat) : list Z :=
  let n_pad := (max_len - seq_len)%nat in
  if String.eqb placement "front"
  then replicate n_pad PAD ++ seq
  else seq ++ replicate n_pad PAD.

Definition SeqPadded (seqs : list (list Z)) (placement : string)
    : result (ndarray Z) :=
  let lens := length <$> seqs in
  max_len ← py_max lens;
  let seqs_padded :=
    (λ '(seq, seq_len), pad_seq placement max_len seq seq_len)
      <$> zip seqs lens in
  transpose_1_0 (np_asarray seqs_padded).

(** ** Indexing and slicing *)

(** [l[i]] for a list or an axis of length [len]: a negative index counts
    from the end, an index outside the axis raises [IndexError]. *)
Definition py_index (len : nat) (i : Z) : result nat :=
  let k := if i <? 0 then i + Z.of_nat len else i in
  if (0 <=? k) && (k <? Z.of_nat len) then Ok (Z.to_nat k)
  else Raise IndexError.

(** [l[i] -= d] *)
Definition isub_item (l : list Z) (i d : Z) : result (list Z) :=
  k ← py_index (length l) i;
  Ok (alter (λ v, v - d) k l).

(** A slice bound on an axis of length [len]: a negative bound counts from
    the end, and the bound is then clamped into [0, len].  No slice bound
    ever raises. *)
Definition slice_bound (len : nat) (i : Z) : nat :=
  let k := if i <? 0 then i + Z.of_nat len else i in
  Z.to_nat (Z.min (Z.max 0 k) (Z.of_nat len)).

(** [x[r0:r1, c0:c1]] on a 2-D array (pixels of an image with channels
    stay whole: the third axis is not sliced). *)
Definition slice2 {A} (x : ndarray A) (r0 r1 c0 c1 : Z) : ndarray A :=
  let '(w, h) := shape x in
  let rlo := slice_bound w r0 in
  let rhi := slice_bound w r1 in
  let clo := slice_bound h c0 in
  let chi := slice_bound h c1 in
  mk_ndarray ((rhi - rlo)%nat, (chi - clo)%nat)
    ((λ r, take (chi - clo) (drop clo r))
       <$> take (rhi - rlo) (drop rlo (rows x))).

(** ** LenClip *)

(** The separator of [x.split(' ')] and [' '.join(words)]. *)
Definition SPACE : Ascii.ascii := Eval cbv in Ascii.ascii_of_nat 32.

(** [x.split(' ')]: every single space separates, so the result is never
    empty and may hold empty words. *)
Fixpoint split_space (x : string) : list string :=
  match x with
  | EmptyString => [EmptyString]
  | String c x' =>
      if Ascii.eqb c SPACE
      then EmptyString :: split_space x'
      else match split_space x' with
           | w :: ws => String c w :: ws
           | [] => [String c EmptyString]
           end
  end.

(** [' '.join(words)] *)
Fixpoint join_space (words : list string) : string :=
  match words with
  | [] => EmptyString
  | w :: ws =>
      match ws with
      | [] => w
      | _ :: _ => w +:+ String SPACE (join_space ws)
      end
  end.

(** [np.cumsum(lens).tolist()] *)
Fixpoint cumsum_from (acc : Z) (lens : list Z) : list Z :=
  match lens with
  | [] => []
  | l :: lens' => (acc + l) :: cumsum_from (acc + l) lens'
  end.

Definition np_cumsum (lens : list Z) : list Z := cumsum_from 0 lens.

(** [[w for w, l in zip(words, lens) if l < n]] *)
Definition words_below (n : Z) (words : list string) (lens : list Z)
    : list string :=
  omap (λ '(w, l), if l <? n then Some w else None) (zip words lens).

(** The body of the loop of [LenClip], for one string [x]. *)
Definition clip (x : string) (n : Z) : result string :=
  let words := split_space x in
  let lens := (λ word, Z.of_nat (String.length word) + 1) <$> words in
  lens ← isub_item lens 0 1;
  lens ← isub_item lens (-1) 1;
  let lens := np_cumsum lens in
  let words := words_below n words lens in
  Ok (join_space words).

Definition LenClip (X : list string) (n : Z) : result (list string) :=
  for_each (λ x, clip x n) X.

(** ** OneHot and Standardize

    numpy's float64 entries are idealised as rationals. *)

(** [np.max(X)]: raises [ValueError] on an empty array. *)
Definition np_max (X : list Z) : result Z :=
  match X with
  | [] => Raise ValueError
  | x :: X' => Ok (foldl Z.max x X')
  end.

(** [np.ones((r, n))]: a negative dimension raises [ValueError]. *)
Definition np_ones (r : nat) (n : Z) : result (ndarray Q) :=
  if n <? 0 then Raise ValueError
  else Ok (mk_ndarray (r, Z.to_nat n)
             (replicate r (replicate (Z.to_nat n) 1%Q))).

(** [a * c], elementwise *)
Definition np_scale (a : ndarray Q) (c : Q) : ndarray Q :=
  mk_ndarray (shape a) ((λ r : list Q, (λ v, v * c)%Q <$> r) <$> rows a).

(** [Xoh[np.arange(len(X)), X] = 1.]: row [k] is written at column [X[k]];
    numpy raises [IndexError] if one of the columns is outside the axis. *)
Fixpoint set_hot (ncols : nat) (rs : list (list Q)) (X : list Z)
    : result (list (list Q)) :=
  match rs, X with
  | r :: rs', x :: X' =>
      c ← py_index ncols x;
      rs'' ← set_hot ncols rs' X';
      Ok (<[c := 1%Q]> r :: rs'')
  | _, _ => Ok rs
  end.

(** [n] is [None] when the caller leaves the class count out;
    [negative_class] defaults to [0.] in the source. *)
Definition OneHot (X : list Z) (n : option Z) (negative_class : Q)
    : result (ndarray Q) :=
  n ← match n with
      | None => m ← np_max X; Ok (m + 1)
      | Some n => Ok n
      end;
  ones ← np_ones (length X) n;
  let Xoh := np_scale ones negative_class in
  rs ← set_hot (shape Xoh).2 (rows Xoh) X;
  Ok (mk_ndarray (shape Xoh) rs).

(** [X / 127.5 - 1.], elementwise *)
Definition Standardize (X : list Q) : list Q :=
  (λ x, x / 127.5 - 1)%Q <$> X.

(** The inverse scaling the specification pairs [Standardize] with. *)
Definition Unstandardize (Y : list Q) : list Q :=
  (λ y, (y + 1) * 127.5)%Q <$> Y.

(** ** The random source *)

(** Modelled from the spec: the module [rng], which makes the generator
    [py_rng] that the whole process shares, is not part of the sources at
    hand.  The specification has the random source provide uniform
    integers in a range; [py_rng] is an instance of Python's
    [random.Random], whose [randint(a, b)] draws an integer of the closed
    range [a..b], advances the generator, and raises [ValueError] when the
    range is empty.  The generator's algorithm plays no part in what is
    proved, so the source is an interface with these two laws. *)
Class PyRandom : Type := {
  rng_state : Type;
  randint : Z → Z → rng_state → result (Z * rng_state);
  randint_range : ∀ a b s,
    a ≤ b → ∃ v s', randint a b s = Ok (v, s') ∧ a ≤ v ≤ b;
  randint_empty : ∀ a b s,
    b < a → randint a b s = Raise ValueError
}.

(** A small generator that meets the interface: a linear congruential
    step, the draw being the state reduced into the range. *)
Definition lcg_next (s : Z) : Z := (1103515245 * s + 12345) mod 2147483648.

Definition lcg_randint (a b : Z) (s : Z) : result (Z * Z) :=
  if b <? a then Raise ValueError
  else Ok (a + s mod (b - a + 1), lcg_next s).

#[global, refine] Instance lcg : PyRandom := {|
  rng_state := Z;
  randint := lcg_randint
|}.
Proof.
  - intros a b s Hab. unfold lcg_randint.
    destruct (Z.ltb_spec b a); [lia|].
    eexists _, _. split; [reflexivity|].
    pose proof (Z.mod_pos_bound s (b - a + 1)). lia.
  - intros a b s Hab. unfold lcg_randint.
    by destruct (Z.ltb_spec b a); [|lia].
Defined.

(** ** Patch and CenterCrop

    An image is a 2-D array of pixels; [x.shape[:2]] is its [shape]. *)

Section Crops.
Context {A : Type} `{PyRandom}.

Fixpoint Patch (X : list (ndarray A)) (pw ph : Z) (s : rng_state)
    : result (list (ndarray A) * rng_state) :=
  match X with
  | [] => Ok ([], s)
  | x :: X' =>
      let '(w, h) := shape x in
      '(i, s) ← randint 0 (Z.of_nat w - pw) s;
      '(j, s) ← randint 0 (Z.of_nat h - ph) s;
      '(Xt, s) ← Patch X' pw ph s;
      Ok (slice2 x i (i + pw) j (j + pw) :: Xt, s)
  end.
End Crops.

(** [int(round(d / 2.))] for an integer [d]: Python 2 rounds a half away
    from zero. *)
Definition round_half (d : Z) : Z :=
  if 0 <=? d then (d + 1) / 2 else - ((- d + 1) / 2).

(** The offsets and the crop [CenterCrop] takes of one image. *)
Definition center_offsets {A} (x : ndarray A) (pw ph : Z) : Z * Z :=
  let '(w, h) := shape x in
  (round_half (Z.of_nat w - pw), round_half (Z.of_nat h - ph)).

Definition center_crop {A} (x : ndarray A) (pw ph : Z) : ndarray A :=
  let '(i, j) := center_offsets x pw ph in
  slice2 x i (i + pw) j (j + pw).

Definition CenterCrop {A} (X : list (ndarray A)) (pw ph : Z)
    : result (list (ndarray A)) :=
  for_each (λ x, Ok (center_crop x pw ph)) X.

(** ** StringToCharacterCNNRNNRep *)

(** The names bound at the top level of [transforms.py], in the order the
    module binds them: its imports, then its functions. *)
Definition module_globals : list string :=
  [ "np"; "pd"; "Counter"; "numpy_array"; "np_rng"; "py_rng";
    "LenClip"; "OneHot"; "SeqPadded"; "FlatToImg"; "ImgToConv";
    "Standardize"; "ZeroOneScale"; "Fliplr"; "Reflect"; "FlipVertical";
    "FlipHorizontal"; "Rot90"; "ColorShift"; "Patch"; "SeqDelete";
    "SeqPatch"; "CenterCrop"; "StringToCharacterCNNRep";
    "StringToCharacterCNNRNNRep" ].

(** Calling the global [name] as [name(x, n=nc)].  A name the module does
    not bind raises [NameError]; of the bound names, [OneHot] is the
    one-hot encoder, and the call is not modelled for the others. *)
Definition call_global (name : string) (x : list Z) (nc : Z)
    : result (ndarray Q) :=
  if bool_decide (name ∈ module_globals)
  then if String.eqb name "OneHot" then OneHot x (Some nc) 0
       else Raise TypeError
  else Raise NameError.

(** [np.zeros((r, n))] *)
Definition np_zeros (r n : nat) : ndarray Q :=
  mk_ndarray (r, n) (replicate r (replicate n 0%Q)).

(** [np.concatenate([a, b])] along the first axis: the second dimensions
    must agree. *)
Definition np_concatenate (a b : ndarray Q) : result (ndarray Q) :=
  if Nat.eqb (shape a).2 (shape b).2
  then Ok (mk_ndarray (((shape a).1 + (shape b).1)%nat, (shape a).2)
             (rows a ++ rows b))
  else Raise ValueError.

(** A 4-D array, as [reshape(len(Xt), 1, max_len, nc)] returns it. *)
Record ndarray4 : Type := mk_ndarray4 {
  shape4 : nat * nat * nat * nat;
  items : list (list (list (list Q)))
}.

(** [list(x)] for a Python 2 string: its characters. *)
Fixpoint chars (x : string) : list Ascii.ascii :=
  match x with
  | EmptyString => []
  | String c x' => c :: chars x'
  end.

(** [np.asarray(Xt).reshape(len(Xt), 1, max_len, nc)]: the arrays of [Xt]
    must all have the shape [(max_len, nc)]. *)
Definition stack_reshape (Xt : list (ndarray Q)) (max_len nc : nat)
    : result ndarray4 :=
  if forallb (λ a, Nat.eqb (shape a).1 max_len && Nat.eqb (shape a).2 nc) Xt
  then Ok (mk_ndarray4 (length Xt, 1%nat, max_len, nc)
             ((λ a, [rows a]) <$> Xt))
  else Raise ValueError.

(** The function as the source has it, the callee's name left open: the
    source calls the global [one_hot]. *)
Definition StringToCharacterCNNRNNRep_calling (callee : string)
    (X : list string) (encoder : gmap Ascii.ascii Z) : result ndarray4 :=
  let nc := S (size encoder) in
  max_len ← py_max (String.length <$> X);
  Xt ← for_each (λ x,
          let x := (λ c, default 0 (encoder !! c)) <$> chars x in
          x ← call_global callee x (Z.of_nat nc);
          let l := (shape x).1 in
          if Nat.eqb l max_len then Ok x
          else np_concatenate (np_zeros (max_len - l) nc) x) X;
  stack_reshape Xt max_len nc.

Definition StringToCharacterCNNRNNRep :=
  StringToCharacterCNNRNNRep_calling "one_hot".

(** ** SeqPadded on the object store

    Python lists are mutable objects that the caller and the callee share.
    To say what [SeqPadded] does to them, this second embedding runs the
    same statements on an explicit store: the world holds the state of the
    shared generator [py_rng] and a heap of list objects, and the argument
    [seqs] is a list of references into the heap.  [[0] * n_pad] and
    [a + b] allocate new list objects; [seq = ...] rebinds a local name. *)

Record world (R : Type) : Type := mk_world {
  py_rng : R;
  heap : list (list Z)
}.
Arguments mk_world {R} py_rng heap.
Arguments py_rng {R} w.
Arguments heap {R} w.

Section Store.
Context {R : Type}.

(** A statement: it may raise, and it leaves a world behind either way. *)
Definition St (A : Type) : Type := world R → result A * world R.

Definition st_ret {A} (a : A) : St A := λ w, (Ok a, w).

Definition st_bind {A B} (m : St A) (f : A → St B) : St B :=
  λ w, match m w with
       | (Ok a, w') => f a w'
       | (Raise e, w') => (Raise e, w')
       end.

Definition st_lift {A} (r : result A) : St A := λ w, (r, w).

Fixpoint st_for_each {A B} (f : A → St B) (X : list A) : St (list B) :=
  match X with
  | [] => st_ret []
  | x :: X' =>
      st_bind (f x) (λ y,
      st_bind (st_for_each f X') (λ Xt,
      st_ret (y :: Xt)))
  end.

(** Reading the list object at [l]; a reference always points to an
    object in Python, the other branch is there for totality. *)
Definition st_read (l : nat) : St (list Z) :=
  λ w, match heap w !! l with
       | Some v => (Ok v, w)
       | None => (Raise TypeError, w)
       end.

(** [len(seq)] *)
Definition st_len (l : nat) : St nat :=
  st_bind (st_read l) (λ v, st_ret (length v)).

(** A new list object holding [v]; its reference is returned. *)
Definition st_alloc (v : list Z) : St nat :=
  λ w, (Ok (length (heap w)), mk_world (py_rng w) (heap w ++ [v])).

(** [[item] * n] *)
Definition st_repeat (item : Z) (n : nat) : St nat :=
  st_alloc (replicate n item).

(** [a + b] on two list objects *)
Definition st_add (a b : nat) : St nat :=
  st_bind (st_read a) (λ va,
  st_bind (st_read b) (λ vb,
  st_alloc (va ++ vb))).

(** One turn of the loop of [SeqPadded]: two list objects are
    allocated, the padding and the padded sequence. *)
Definition pad_turn (placement : string) (max_len : nat)
    (p : nat * nat) : St nat :=
  let '(seq, seq_len) := p in
  let n_pad := (max_len - seq_len)%nat in
  if String.eqb placement "front"
  then st_bind (st_repeat PAD n_pad) (λ pad, st_add pad seq)
  else st_bind (st_repeat PAD n_pad) (λ pad, st_add seq pad).

Definition SeqPadded_st (seqs : list nat) (placement : string)
    : St (ndarray Z) :=
  st_bind (st_for_each st_len seqs) (λ lens,
  st_bind (st_lift (py_max lens)) (λ max_len,
  st_bind (st_for_each (pad_turn placement max_len) (zip seqs lens))
    (λ seqs_padded,
  st_bind (st_for_each st_read seqs_padded) (λ items,
  st_lift (transpose_1_0 (np_asarray items)))))).
End Store.

(** The references [refs] point to the values [vals] in the heap [h]. *)
Definition points_to (h : list (list Z)) (refs : list nat)
    (vals : list (list Z)) : Prop :=
  Forall2 (λ l v, h !! l = Some v) refs vals.

(** ** Reading a padded column back

    The specification reads a sequence back from its column as the
    non-sentinel run: skip the sentinels, then take entries up to the next
    sentinel. *)
Fixpoint skip_sentinels (col : list Z) : list Z :=
  match col with
  | [] => []
  | t :: col' => if t =? PAD then skip_sentinels col' else col
  end.

Fixpoint upto_sentinel (col : list Z) : list Z :=
  match col with
  | [] => []
  | t :: col' => if t =? PAD then [] else t :: upto_sentinel col'
  end.

Definition non_sentinel_run (col : list Z) : list Z :=
  upto_sentinel (skip_sentinels col).

(** ** ZeroOneScale *)

(** [X / 255.], elementwise *)
Definition ZeroOneScale (X : list Q) : list Q :=
  (λ x, x / 255)%Q <$> X.

(** ** Draws of floats *)

(** Modelled from the spec: [py_rng.random()], of the same generator of the
    module [rng] that is not part of the sources at hand.  The
    specification has the random source provide uniform floats in [0, 1):
    [random.Random.random()] returns such a float, advances the generator
    and never raises.  A float is a rational, and the source only compares
    the draw with another float, which is exact, so draws are rationals. *)
Class PyRandomFloat `{PyRandom} : Type := {
  random : rng_state → Q * rng_state;
  random_range : ∀ s, (0 <= (random s).1)%Q ∧ ((random s).1 < 1)%Q
}.

(** [a < b] on floats, as a boolean. *)
Definition Qlt_bool (a b : Q) : bool := negb (Qle_bool b a).

Definition lcg_random (s : Z) : Q * Z :=
  (Qmake (s mod 2147483648) 2147483648, lcg_next s).

#[global, refine] Instance lcg_float : PyRandomFloat (H := lcg) := {|
  random := lcg_random
|}.
Proof.
  intros s. unfold lcg_random, Qle, Qlt. simpl.
  pose proof (Z.mod_pos_bound s 2147483648). lia.
Defined.

(** A loop [for x in X: ...; Xt.append(y)] whose body draws from the
    generator and may raise. *)
Fixpoint rng_for_each {S A B} (f : A → S → result (B * S))
    (X : list A) (s : S) : result (list B * S) :=
  match X with
  | [] => Ok ([], s)
  | x :: X' =>
      '(y, s) ← f x s;
      '(Xt, s) ← rng_for_each f X' s;
      Ok (y :: Xt, s)
  end.

(** ** Flips and rotations *)

(** [np.fliplr(x)], that is [x[:, ::-1]] *)
Definition np_fliplr {A} (x : ndarray A) : ndarray A :=
  mk_ndarray (shape x) (reverse <$> rows x).

(** [np.flipud(x)], that is [x[::-1]] *)
Definition np_flipud {A} (x : ndarray A) : ndarray A :=
  mk_ndarray (shape x) (reverse (rows x)).

(** [np.rot90(x, k)]: [k] quarter turns, counted modulo 4. *)
Definition np_rot90 {A} (x : ndarray A) (k : Z) : ndarray A :=
  match k mod 4 with
  | 0 => x
  | 1 => transpose (np_fliplr x)
  | 2 => np_fliplr (np_flipud x)
  | _ => np_fliplr (transpose x)
  end.

Section Augmentations.
Context {A : Type} `{PyRandomFloat}.

Definition Fliplr (X : list (ndarray A)) (s : rng_state)
    : result (list (ndarray A) * rng_state) :=
  rng_for_each (λ x s,
    let '(r, s) := random s in
    let x := if Qlt_bool 0.5 r then np_fliplr x else x in
    Ok (x, s)) X s.

Definition Reflect (X : list (ndarray A)) (s : rng_state)
    : result (list (ndarray A) * rng_state) :=
  rng_for_each (λ x s,
    let '(r, s) := random s in
    let x := if Qlt_bool 0.5 r then np_flipud x else x in
    let '(r, s) := random s in
    let x := if Qlt_bool 0.5 r then np_fliplr x else x in
    Ok (x, s)) X s.

Definition FlipVertical (X : list (ndarray A)) (s : rng_state)
    : result (list (ndarray A) * rng_state) :=
  rng_for_each (λ x s,
    let '(r, s) := random s in
    let x := if Qlt_bool 0.5 r then np_flipud x else x in
    Ok (x, s)) X s.

Definition FlipHorizontal (X : list (ndarray A)) (s : rng_state)
    : result (list (ndarray A) * rng_state) :=
  rng_for_each (λ x s,
    let '(r, s) := random s in
    let x := if Qlt_bool 0.5 r then np_fliplr x else x in
    Ok (x, s)) X s.

Definition Rot90 (X : list (ndarray A)) (s : rng_state)
    : result (list (ndarray A) * rng_state) :=
  rng_for_each (λ x s,
    '(k, s) ← randint 0 3 s;
    Ok (np_rot90 x k, s)) X s.

(** ** SeqDelete and SeqPatch *)

(** [[w for w in x if py_rng.random() > p_delete]] *)
Fixpoint keep_tokens (p_delete : Q) (x : list A) (s : rng_state)
    : list A * rng_state :=
  match x with
  | [] => ([], s)
  | w :: x' =>
      let '(r, s) := random s in
      let '(kept, s) := keep_tokens p_delete x' s in
      (if Qlt_bool p_delete r then w :: kept else kept, s)
  end.

Definition SeqDelete (X : list (list A)) (p_delete : Q) (s : rng_state)
    : result (list (list A) * rng_state) :=
  rng_for_each (λ x s, Ok (keep_tokens p_delete x s)) X s.

(** [x[start:stop]] on a list *)
Definition py_slice (x : list A) (start stop : Z) : list A :=
  let lo := slice_bound (length x) start in
  let hi := slice_bound (length x) stop in
  take (hi - lo) (drop lo x).

(** [SeqPatch]: the patch length [n = int(p_size*l)] is a product of
    floats, truncated; it enters as the function [patch_len] of [l], of
    which nothing is assumed. *)
Definition SeqPatch (X : list (list A)) (patch_len : nat → Z)
    (s : rng_state) : result (list (list A) * rng_state) :=
  rng_for_each (λ x s,
    let l := length x in
    let n := patch_len l in
    '(i, s) ← randint 0 (Z.of_nat l - n) s;
    Ok (py_slice x i (i + n), s)) X s.
End Augmentations.

(** ** ColorShift *)

(** A 3-D integer array: an image of shape (w, h, channels). *)
Record ndarray3 : Type := mk_ndarray3 {
  shape3 : nat * nat * nat;
  cells : list (list (list Z))
}.

(** The value an integer takes in an [int16] and in a [uint8] array. *)
Definition int16 (v : Z) : Z := (v + 32768) mod 65536 - 32768.
Definition uint8 (v : Z) : Z := v mod 256.

(** [np.clip(v, lo, hi)], that is [minimum(maximum(v, lo), hi)] *)
Definition np_clip (lo hi v : Z) : Z := Z.min (Z.max v lo) hi.

(** Applying [f] to every entry of a 3-D array. *)
Definition map_cells (f : list Z → list Z) (x : ndarray3) : ndarray3 :=
  mk_ndarray3 (shape3 x)
    ((λ row : list (list Z), f <$> row) <$> cells x).

(** [x.astype(np.int16)] and [np.clip(x, 0, 255).astype(np.uint8)] *)
Definition astype_int16 (x : ndarray3) : ndarray3 :=
  map_cells (fmap int16) x.

Definition clip_uint8 (x : ndarray3) : ndarray3 :=
  map_cells (fmap (λ v, uint8 (np_clip 0 255 v))) x.

Section ColorShift.
Context `{PyRandomFloat}.

(** [x[:, :, c] += (py_rng.random() < p)*py_rng.randint(-scale, scale)] on
    an [int16] array: the channel is looked up first ([IndexError] when
    the image has no channel [c]), then the two draws are made, and the
    sum wraps into [int16]. *)
Definition shift_channel (p : Q) (scale : Z) (c : nat) (x : ndarray3)
    (s : rng_state) : result (ndarray3 * rng_state) :=
  if (c <? (shape3 x).2)%nat then
    let '(r, s) := random s in
    '(d, s) ← randint (- scale) scale s;
    let delta := (if Qlt_bool r p then 1 else 0) * d in
    Ok (map_cells (alter (λ v, int16 (v + delta)) c) x, s)
  else Raise IndexError.

(** [p] defaults to [1/3.] and [scale] to 20 in the source. *)
Definition ColorShift (X : list ndarray3) (p : Q) (scale : Z)
    (s : rng_state) : result (list ndarray3 * rng_state) :=
  rng_for_each (λ x s,
    let x := astype_int16 x in
    '(x, s) ← shift_channel p scale 0 x s;
    '(x, s) ← shift_channel p scale 1 x s;
    '(x, s) ← shift_channel p scale 2 x s;
    Ok (clip_uint8 x, s)) X s.
End ColorShift.

(** ** StringToCharacterCNNRep *)

(** [np.asarray(Xt).reshape(len(Xt), 1, max_len, nc)] for a given
    [max_len]: an empty [Xt] has no entry and takes any shape without
    entries, but no negative dimension. *)
Definition stack_reshape_to (Xt : list (ndarray Q)) (max_len : Z) (nc : nat)
    : result ndarray4 :=
  if max_len <? 0 then Raise ValueError
  else stack_reshape Xt (Z.to_nat max_len) nc.

(** [np.zeros((r, n))] with a row count that may be negative. *)
Definition np_zeros_Z (r : Z) (n : nat) : result (ndarray Q) :=
  if r <? 0 then Raise ValueError else Ok (np_zeros (Z.to_nat r) n).

(** The function as the source has it, the callee's name left open: the
    source calls the global [one_hot] here too. *)
Definition StringToCharacterCNNRep_calling (callee : string)
    (X : list string) (max_len : Z) (encoder : gmap Ascii.ascii Z)
    : result ndarray4 :=
  let nc := S (size encoder) in
  Xt ← for_each (λ x,
          let x := (λ c, default 0 (encoder !! c)) <$> chars x in
          x ← call_global callee x (Z.of_nat nc);
          let l := (shape x).1 in
          if Z.of_nat l =? max_len then Ok x
          else zeros ← np_zeros_Z (max_len - Z.of_nat l) nc;
               np_concatenate x zeros) X;
  stack_reshape_to Xt max_len nc.

Definition StringToCharacterCNNRep :=
  StringToCharacterCNNRep_calling "one_hot".

(** ** Quantities the properties are stated with *)

(** The longest length of the batch, [max(map(len, seqs))]. *)
Definition max_len_of (seqs : list (list Z)) : nat :=
  max_list (length <$> seqs).

(** The padded sequences, before the transposition. *)
Definition padded_rows (seqs : list (list Z)) (placement : string)
    : list (list Z) :=
  (λ seq, pad_seq placement (max_len_of seqs) seq (length seq)) <$> seqs.

(** The sum of a list of integers. *)
Definition zsum (l : list Z) : Z := foldr Z.add 0 l.

(** [len(word) + 1], the entries of [lens] before the two adjustments. *)
Definition len1 (word : string) : Z := Z.of_nat (String.length word) + 1.

(** [lens] after [lens[0] -= 1] and [lens[-1] -= 1]. *)
Definition adjusted_lens (words : list string) : list Z :=
  alter (λ v, v - 1) (length words - 1)%nat
    (alter (λ v, v - 1) 0%nat (len1 <$> words)).

(** The code points of a string under [encoder], [encoder.get(c, 0)]. *)
Definition encode (encoder : gmap Ascii.ascii Z) (x : string) : list Z :=
  (λ c, default 0 (encoder !! c)) <$> chars x.

(** The rows of a one-hot array with fill 0: row [k] has its 1 at the
    label of sample [k]. *)
Definition one_hot_rows (nc : nat) (codes : list Z) : list (list Q) :=
  (λ v, <[Z.to_nat v := 1%Q]> (replicate nc 0%Q)) <$> codes.

(** The pixels of an image, row after row. *)
Definition pixels {A} (x : ndarray A) : list A := concat (rows x).

(** What [ColorShift] makes of one pixel when the three channels are
    shifted by [d0], [d1] and [d2]. *)
Definition shift_pixel (d0 d1 d2 : Z) (px : list Z) : list Z :=
  (λ v, uint8 (np_clip 0 255 v))
    <$> alter (λ v, int16 (v + d2)) 2%nat
          (alter (λ v, int16 (v + d1)) 1%nat
             (alter (λ v, int16 (v + d0)) 0%nat (int16 <$> px))).

(** An image whose entries are all values of a [uint8]. *)
Definition uint8_image (x : ndarray3) : Prop :=
  Forall (Forall (Forall (λ v, 0 ≤ v ≤ 255))) (cells x).

(** * Properties *)

(** ** Lists of rows and their columns *)

Section Columns.
Context {A : Type}.
Implicit Types (l : list (list A)) (r : list A).

Lemma column_lookup l i j :
  Forall (λ r, (i < length r)%nat) l →
  column i l !! j = l !! j ≫= (.!! i).
Proof.
  intros Hl. revert j. induction Hl as [|r l Hr _ IH]; intros j.
  - done.
  - unfold column in *. simpl.
    destruct (lookup_lt_is_Some_2 r i Hr) as [a Ha]. rewrite Ha.
    destruct j as [|j]; simpl; [done | apply IH].
Qed.

Lemma column_length l i :
  Forall (λ r, (i < length r)%nat) l → length (column i l) = length l.
Proof.
  induction 1 as [|r l Hr _ IH]; [done|].
  unfold column in *. simpl.
  destruct (lookup_lt_is_Some_2 r i Hr) as [a Ha]. rewrite Ha.
  simpl. f_equal. exact IH.
Qed.

Lemma omap_lookup_seq r k :
  omap (λ i, r !! i) (seq k (length r - k)) = drop k r.
Proof.
  remember (length r - k)%nat as n eqn:Hn.
  revert k Hn. induction n as [|n IH]; intros k Hn.
  - simpl. rewrite drop_ge; [done | lia].
  - simpl. destruct (lookup_lt_is_Some_2 r k) as [a Ha]; [lia|].
    rewrite Ha. rewrite IH by lia.
    symmetry. by apply drop_S.
Qed.

(** Reading column [j] of the transposed rows gives row [j] back. *)
Lemma column_transposed l m j r :
  Forall (λ r, length r = m) l →
  l !! j = Some r →
  column j ((λ i, column i l) <$> seq 0 m) = r.
Proof.
  intros Hl Hj.
  assert (length r = m) as Hr.
  { exact (Forall_lookup_1 (λ r, length r = m) l j r Hl Hj). }
  unfold column at 1.
  transitivity (omap (λ i, r !! i) (seq 0 m)).
  - apply list_omap_ext. apply Forall2_same_length_lookup_2.
    { by rewrite length_fmap. }
    intros k c i Hc Hi.
    rewrite list_lookup_fmap, Hi in Hc. injection Hc as <-.
    apply lookup_seq in Hi as [-> Hlt]. simpl.
    rewrite column_lookup, Hj; [done|].
    eapply Forall_impl; [exact Hl|]. simpl. intros; lia.
  - pose proof (omap_lookup_seq r 0) as H.
    rewrite Nat.sub_0_r, Hr in H. by rewrite H.
Qed.

Lemma rectangular_Forall m l :
  rectangular m l = true ↔ Forall (λ r, length r = m) l.
Proof.
  unfold rectangular. induction l as [|r l IH]; simpl.
  - split; [constructor | done].
  - rewrite andb_true_iff, Nat.eqb_eq, IH, Forall_cons. done.
Qed.

Lemma transpose_dense (a : ndarray A) : dense a → dense (transpose a).
Proof.
  destruct a as [[n m] l]. unfold dense, transpose. simpl.
  intros [Hn Hl]. split.
  - by rewrite length_fmap, length_seq.
  - apply Forall_fmap, Forall_forall. intros i Hi. simpl.
    apply elem_of_seq in Hi. rewrite column_length; [done|].
    eapply Forall_impl; [exact Hl|]. simpl. intros; lia.
Qed.
End Columns.

(** ** SeqPadded *)

(** The examples of the specification. *)
Example SeqPadded_single_front :
  SeqPadded [[1; 2; 3]] "front" = Ok (mk_ndarray (3, 1)%nat [[1]; [2]; [3]]).
Proof. reflexivity. Qed.

Example SeqPadded_single_back :
  SeqPadded [[1; 2; 3]] "back" = Ok (mk_ndarray (3, 1)%nat [[1]; [2]; [3]]).
Proof. reflexivity. Qed.

Example SeqPadded_front :
  SeqPadded [[1]; [1; 2; 3]] "front"
  = Ok (mk_ndarray (3, 2)%nat [[0; 1]; [0; 2]; [1; 3]]).
Proof. reflexivity. Qed.

Example SeqPadded_back :
  SeqPadded [[1]; [1; 2; 3]] "back"
  = Ok (mk_ndarray (3, 2)%nat [[1; 1]; [0; 2]; [0; 3]]).
Proof. reflexivity. Qed.

Example SeqPadded_all_empty :
  SeqPadded [[]; []] "front" = Ok (mk_ndarray (0, 2)%nat []).
Proof. reflexivity. Qed.

Lemma foldl_max_max_list (l : list nat) (x : nat) :
  foldl Nat.max x l = (x `max` max_list l)%nat.
Proof.
  revert x. induction l as [|y l IH]; intros x; simpl.
  - lia.
  - rewrite IH. lia.
Qed.

Lemma py_max_Ok (l : list nat) : l ≠ [] → py_max l = Ok (max_list l).
Proof.
  destruct l as [|x l]; [done|]. intros _. simpl.
  by rewrite foldl_max_max_list.
Qed.

Lemma zip_lens_fmap {B} (f : list Z → nat → B) (seqs : list (list Z)) :
  (λ '(seq, seq_len), f seq seq_len) <$> zip seqs (length <$> seqs)
  = (λ seq, f seq (length seq)) <$> seqs.
Proof. induction seqs as [|s seqs IH]; csimpl; [done | by f_equal]. Qed.

Lemma pad_seq_length placement m (seq : list Z) :
  (length seq ≤ m)%nat → length (pad_seq placement m seq (length seq)) = m.
Proof.
  intros Hle. unfold pad_seq.
  destruct (String.eqb placement "front");
    rewrite length_app, length_replicate; lia.
Qed.

Lemma pad_seq_full placement m (seq : list Z) :
  length seq = m → pad_seq placement m seq (length seq) = seq.
Proof.
  intros <-. unfold pad_seq. rewrite Nat.sub_diag. simpl.
  destruct (String.eqb placement "front"); [done | by rewrite app_nil_r].
Qed.

Lemma max_len_of_ge (seqs : list (list Z)) (seq : list Z) :
  seq ∈ seqs → (length seq ≤ max_len_of seqs)%nat.
Proof.
  intros Hin. apply max_list_elem_of_le.
  apply list_elem_of_fmap. by exists seq.
Qed.

Lemma padded_rows_rectangular seqs placement :
  Forall (λ r, length r = max_len_of seqs) (padded_rows seqs placement).
Proof.
  unfold padded_rows. apply Forall_fmap, Forall_forall. intros seq Hin.
  simpl. by apply pad_seq_length, max_len_of_ge.
Qed.

(** On a batch that is not empty [SeqPadded] returns, and what it returns
    is the transposition of the padded sequences. *)
Lemma SeqPadded_Ok seqs placement :
  seqs ≠ [] →
  SeqPadded seqs placement
  = Ok (transpose (mk_ndarray (length seqs, max_len_of seqs)
                              (padded_rows seqs placement))).
Proof.
  intros Hne. unfold SeqPadded.
  rewrite py_max_Ok by (by destruct seqs).
  simpl. rewrite zip_lens_fmap.
  fold (max_len_of seqs). fold (padded_rows seqs placement).
  pose proof (padded_rows_rectangular seqs placement) as Hrect.
  assert (length (padded_rows seqs placement) = length seqs) as Hlen.
  { unfold padded_rows. by rewrite length_fmap. }
  destruct (padded_rows seqs placement) as [|r l] eqn:Hp.
  { destruct seqs; [done | discriminate]. }
  unfold np_asarray.
  assert (length r = max_len_of seqs) as Hr by (by inversion Hrect).
  rewrite Hr, (proj2 (rectangular_Forall _ _) Hrect), Hlen.
  done.
Qed.

Lemma SeqPadded_column seqs placement j seq :
  seqs !! j = Some seq →
  column j (rows (transpose (mk_ndarray (length seqs, max_len_of seqs)
                                        (padded_rows seqs placement))))
  = pad_seq placement (max_len_of seqs) seq (length seq).
Proof.
  intros Hj. unfold transpose. simpl.
  apply column_transposed.
  - apply padded_rows_rectangular.
  - unfold padded_rows. by rewrite list_lookup_fmap, Hj.
Qed.

(** C1. For a batch of sequences that is not empty and either placement
    (any string, in fact), [SeqPadded] returns a dense 2-D array with
    [max(len(s) for s in seqs)] rows and [len(seqs)] columns; column [j]
    is sequence [j], padded; and a sequence as long as the maximum is its
    column, with no padding. *)
Theorem SeqPadded_shape (seqs : list (list Z)) (placement : string) :
  seqs ≠ [] →
  ∃ a, SeqPadded seqs placement = Ok a ∧
       shape a = (max_list (length <$> seqs), length seqs) ∧
       dense a ∧
       (∀ j seq, seqs !! j = Some seq →
          column j (rows a)
          = pad_seq placement (max_list (length <$> seqs)) seq (length seq)) ∧
       (∀ j seq, seqs !! j = Some seq →
          length seq = max_list (length <$> seqs) →
          column j (rows a) = seq).
Proof.
  intros Hne. eexists. split; [by apply SeqPadded_Ok|].
  split; [done|]. split; [|split].
  - apply transpose_dense. split; simpl.
    + unfold padded_rows. by rewrite length_fmap.
    + apply padded_rows_rectangular.
  - intros j seq Hj. by apply SeqPadded_column.
  - intros j seq Hj Hlen.
    rewrite (SeqPadded_column _ _ _ _ Hj). by apply pad_seq_full.
Qed.

Lemma SeqPadded_shape_witness :
  ∃ a, SeqPadded [[1]; [1; 2; 3]] "front" = Ok a ∧
       shape a = (3, 2)%nat ∧ column 1 (rows a) = [1; 2; 3].
Proof.
  destruct (SeqPadded_shape [[1]; [1; 2; 3]] "front" ltac:(discriminate))
    as (a & Ha & Hs & _ & _ & Hfull).
  exists a. split; [exact Ha|]. split; [exact Hs|].
  apply (Hfull 1%nat); reflexivity.
Defined.

Lemma upto_sentinel_tokens (seq : list Z) (n : nat) :
  Forall (λ t, t ≠ PAD) seq →
  upto_sentinel (seq ++ replicate n PAD) = seq.
Proof.
  induction 1 as [|t seq Ht _ IH]; simpl.
  - by destruct n.
  - apply Z.eqb_neq in Ht. rewrite Ht. by rewrite IH.
Qed.

Lemma skip_sentinels_pad (n : nat) (col : list Z) :
  skip_sentinels (replicate n PAD ++ col) = skip_sentinels col.
Proof. induction n as [|n IH]; [done | exact IH]. Qed.

Lemma skip_sentinels_tokens (seq col : list Z) :
  Forall (λ t, t ≠ PAD) seq → seq ≠ [] →
  skip_sentinels (seq ++ col) = seq ++ col.
Proof.
  intros Hseq Hne. destruct Hseq as [|t seq Ht _]; [done|].
  simpl. apply Z.eqb_neq in Ht. by rewrite Ht.
Qed.

Lemma non_sentinel_run_front (seq : list Z) (n : nat) :
  Forall (λ t, t ≠ PAD) seq →
  non_sentinel_run (replicate n PAD ++ seq) = seq.
Proof.
  intros Hseq. unfold non_sentinel_run. rewrite skip_sentinels_pad.
  destruct seq as [|t seq]; [done|].
  rewrite <- (app_nil_r (t :: seq)) at 1.
  rewrite skip_sentinels_tokens by done.
  by apply (upto_sentinel_tokens _ 0).
Qed.

Lemma non_sentinel_run_back (seq : list Z) (n : nat) :
  Forall (λ t, t ≠ PAD) seq →
  non_sentinel_run (seq ++ replicate n PAD) = seq.
Proof.
  intros Hseq. unfold non_sentinel_run.
  destruct seq as [|t seq].
  - simpl. rewrite <- (app_nil_r (replicate n PAD)).
    by rewrite skip_sentinels_pad.
  - rewrite skip_sentinels_tokens by done.
    by apply upto_sentinel_tokens.
Qed.

(** C2, as the specification states it, fails on a sequence that holds the
    token 0: padded at the front, [[0, 5]] gives the column [[0, 0, 5]],
    whose non-sentinel run is [[5]]. *)
Lemma SeqPadded_zero_token_lost :
  ∃ a, SeqPadded [[0; 5]; [1; 2; 3]] "front" = Ok a ∧
       column 0 (rows a) = [0; 0; 5] ∧
       non_sentinel_run (column 0 (rows a)) ≠ [0; 5].
Proof. eexists. split; [reflexivity|]. split; [reflexivity | discriminate]. Qed.

(** C2, amended. In the output of [SeqPadded] the column of a sequence is
    the sequence itself, whole and in order, with the padding zeros before
    it (placement "front") or after it (any other placement), never inside
    it; and when no token of the sequence is 0, the non-sentinel run of the
    column is the sequence. *)
Theorem SeqPadded_contiguous (seqs : list (list Z)) (placement : string)
    (j : nat) (seq : list Z) :
  seqs !! j = Some seq →
  ∃ a, SeqPadded seqs placement = Ok a ∧
       let n_pad := (max_list (length <$> seqs) - length seq)%nat in
       column j (rows a)
       = (if String.eqb placement "front"
          then replicate n_pad PAD ++ seq
          else seq ++ replicate n_pad PAD) ∧
       (Forall (λ t, t ≠ PAD) seq →
        non_sentinel_run (column j (rows a)) = seq).
Proof.
  intros Hj. eexists. split.
  { apply SeqPadded_Ok. intros ->. discriminate. }
  cbv zeta. rewrite (SeqPadded_column _ _ _ _ Hj).
  unfold pad_seq, max_len_of.
  split; [done|]. intros Hseq.
  destruct (String.eqb placement "front").
  - by apply non_sentinel_run_front.
  - by apply non_sentinel_run_back.
Qed.

Lemma SeqPadded_contiguous_witness :
  ∃ a, SeqPadded [[7]; [1; 2; 3]] "back" = Ok a ∧
       column 0 (rows a) = [7; 0; 0] ∧
       non_sentinel_run (column 0 (rows a)) = [7].
Proof.
  destruct (SeqPadded_contiguous [[7]; [1; 2; 3]] "back" 0 [7] eq_refl)
    as (a & Ha & Hcol & Hrun).
  exists a. split; [exact Ha|]. split; [exact Hcol|].
  apply Hrun. repeat constructor; discriminate.
Defined.

(** C3. On an empty batch [SeqPadded] raises, at [max(lens)]: the error is
    Python's [ValueError], of the specification's class InvalidInputError,
    and no other. *)
Theorem SeqPadded_empty (placement : string) :
  SeqPadded [] placement = Raise ValueError ∧
  InvalidInputError ValueError = true ∧
  ∀ e, SeqPadded [] placement = Raise e → e = ValueError.
Proof.
  split; [reflexivity|]. split; [reflexivity|].
  intros e He. simpl in He. by injection He.
Qed.

(** ** SeqPadded on the object store *)

Section StoreFacts.
Context {R : Type}.
Implicit Types (w : world R) (seqs refs : list nat) (vals : list (list Z)).

Lemma points_to_extend h fresh refs vals :
  points_to h refs vals → points_to (h ++ fresh) refs vals.
Proof.
  intros Hp. eapply Forall2_impl; [exact Hp|].
  intros l v Hl. by apply lookup_app_l_Some.
Qed.

Lemma world_eta w : mk_world (py_rng w) (heap w ++ []) = w.
Proof. destruct w as [g h]. simpl. by rewrite app_nil_r. Qed.

Lemma st_for_each_cons {A B} (f : A → St B) (x : A) (X : list A) w :
  st_for_each f (x :: X) w
  = match f x w with
    | (Ok y, w') =>
        match st_for_each f X w' with
        | (Ok Xt, w'') => (Ok (y :: Xt), w'')
        | (Raise e, w'') => (Raise e, w'')
        end
    | (Raise e, w') => (Raise e, w')
    end.
Proof.
  simpl. unfold st_bind, st_ret.
  destruct (f x w) as [[y|e] w']; [|done].
  by destruct (st_for_each f X w') as [[Xt|e] w''].
Qed.

Lemma st_read_all w refs vals :
  points_to (heap w) refs vals →
  st_for_each st_read refs w = (Ok vals, w).
Proof.
  induction 1 as [|l v refs vals Hl _ IH]; [done|].
  simpl. unfold st_bind at 1. unfold st_read at 1. rewrite Hl.
  unfold st_bind at 1. by rewrite IH.
Qed.

Lemma st_len_run w l v :
  heap w !! l = Some v → st_len l w = (Ok (length v), w).
Proof. intros Hl. unfold st_len, st_bind, st_read. by rewrite Hl. Qed.

Lemma st_len_all w refs vals :
  points_to (heap w) refs vals →
  st_for_each st_len refs w = (Ok (length <$> vals), w).
Proof.
  induction 1 as [|l v refs vals Hl _ IH]; [done|].
  simpl. unfold st_bind at 1. rewrite (st_len_run _ _ _ Hl).
  unfold st_bind at 1. by rewrite IH.
Qed.

Lemma pad_turn_run placement m w l v :
  heap w !! l = Some v →
  pad_turn placement m (l, length v) w
  = (Ok (S (length (heap w))),
     mk_world (py_rng w)
       (heap w ++ [replicate (m - length v) PAD;
                   pad_seq placement m v (length v)])).
Proof.
  intros Hl. destruct w as [g h]. simpl in Hl.
  assert ((h ++ [replicate (m - length v) PAD]) !! length h
          = Some (replicate (m - length v) PAD)) as Hpad.
  { by rewrite lookup_app_r, Nat.sub_diag. }
  assert ((h ++ [replicate (m - length v) PAD]) !! l = Some v) as Hl'.
  { by apply lookup_app_l_Some. }
  unfold pad_turn, pad_seq.
  destruct (String.eqb placement "front");
    unfold st_bind, st_repeat, st_add, st_bind, st_read, st_alloc;
    repeat (cbn [heap py_rng]; first [rewrite Hpad | rewrite Hl']);
    cbn [heap py_rng];
    rewrite length_app, <- app_assoc; simpl;
    repeat f_equal; lia.
Qed.

Lemma pad_loop_run placement m w seqs vals :
  points_to (heap w) seqs vals →
  ∃ fresh refs,
    st_for_each (pad_turn placement m) (zip seqs (length <$> vals)) w
    = (Ok refs, mk_world (py_rng w) (heap w ++ fresh)) ∧
    points_to (heap w ++ fresh) refs
      ((λ v, pad_seq placement m v (length v)) <$> vals).
Proof.
  intros Hp. revert w seqs Hp.
  induction vals as [|v vals IH]; intros w seqs Hp;
    inversion Hp as [|l ? seqs' ? Hl Hp']; subst.
  - exists [], []. split; [|constructor].
    simpl. unfold st_ret. by rewrite world_eta.
  - set (new := [replicate (m - length v) PAD;
                 pad_seq placement m v (length v)]).
    destruct (IH (mk_world (py_rng w) (heap w ++ new)) seqs') as
      (fresh & refs & Hrun & Hrefs).
    { cbn [heap]. apply points_to_extend. exact Hp'. }
    simpl in Hrun, Hrefs.
    exists (new ++ fresh), (S (length (heap w)) :: refs).
    rewrite app_assoc. split.
    + rewrite fmap_cons. cbn [zip_with]. rewrite st_for_each_cons.
      rewrite (pad_turn_run _ _ _ _ _ Hl). fold new.
      by rewrite Hrun.
    + csimpl. constructor; [|done].
      apply lookup_app_l_Some.
      rewrite lookup_app_r by lia.
      by replace (S (length (heap w)) - length (heap w))%nat with 1%nat
        by lia.
Qed.

(** Running [SeqPadded] on the store returns what the embedding on
    values returns, and only adds list objects to the heap. *)
Lemma SeqPadded_st_run w seqs vals placement :
  points_to (heap w) seqs vals →
  ∃ fresh,
    SeqPadded_st seqs placement w
    = (SeqPadded vals placement, mk_world (py_rng w) (heap w ++ fresh)).
Proof.
  intros Hp. unfold SeqPadded_st, SeqPadded.
  unfold st_bind at 1. rewrite (st_len_all _ _ _ Hp).
  unfold st_bind at 1, st_lift at 1.
  destruct (py_max (length <$> vals)) as [m|e] eqn:Hmax.
  - destruct (pad_loop_run placement m w seqs vals Hp)
      as (fresh & refs & Hrun & Hrefs).
    exists fresh. simpl.
    unfold st_bind at 1. rewrite Hrun.
    unfold st_bind at 1.
    rewrite (st_read_all (mk_world (py_rng w) (heap w ++ fresh)) _ _ Hrefs).
    unfold st_lift. by rewrite zip_lens_fmap.
  - exists []. simpl. by rewrite world_eta.
Qed.
End StoreFacts.

(** C4. [SeqPadded] is a pure function of its inputs: run on the store,
    its result is determined by the values of the sequences and by the
    placement (two calls with equal sequences and placement, in any two
    worlds, return equal results); it leaves the shared generator as it
    was; and every list object that existed before the call still holds
    the same value after it. *)
Theorem SeqPadded_pure {R : Type} (w1 w2 : world R) (seqs1 seqs2 : list nat)
    (vals : list (list Z)) (placement : string) :
  points_to (heap w1) seqs1 vals →
  points_to (heap w2) seqs2 vals →
  (SeqPadded_st seqs1 placement w1).1 = SeqPadded vals placement ∧
  (SeqPadded_st seqs1 placement w1).1 = (SeqPadded_st seqs2 placement w2).1 ∧
  py_rng (SeqPadded_st seqs1 placement w1).2 = py_rng w1 ∧
  ∀ l v, heap w1 !! l = Some v →
         heap (SeqPadded_st seqs1 placement w1).2 !! l = Some v.
Proof.
  intros H1 H2.
  destruct (SeqPadded_st_run w1 seqs1 vals placement H1) as [f1 E1].
  destruct (SeqPadded_st_run w2 seqs2 vals placement H2) as [f2 E2].
  rewrite E1, E2. simpl. repeat split.
  intros l v Hl. by apply lookup_app_l_Some.
Qed.

Lemma SeqPadded_pure_witness :
  (SeqPadded_st [0; 1]%nat "front" (mk_world 42 [[1]; [1; 2; 3]])).1
  = (SeqPadded_st [2; 1]%nat "front" (mk_world 7 [[9]; [1; 2; 3]; [1]])).1.
Proof.
  apply (SeqPadded_pure (mk_world 42 [[1]; [1; 2; 3]])
           (mk_world 7 [[9]; [1; 2; 3]; [1]])
           [0; 1]%nat [2; 1]%nat [[1]; [1; 2; 3]] "front");
    repeat constructor.
Defined.

(** ** LenClip *)

Lemma string_length_append (a b : string) :
  String.length (a +:+ b) = (String.length a + String.length b)%nat.
Proof. induction a as [|c a IH]; simpl; [done | by rewrite IH]. Qed.

Lemma split_space_nonempty (x : string) : split_space x ≠ [].
Proof.
  destruct x as [|c x]; simpl; [done|].
  destruct (Ascii.eqb c SPACE); [done|].
  by destruct (split_space x).
Qed.

(** Joining the words of a string gives the string back. *)
Lemma join_split (x : string) : join_space (split_space x) = x.
Proof.
  induction x as [|c x IH]; [done|].
  pose proof (split_space_nonempty x) as Hne.
  cbn [split_space]. destruct (Ascii.eqb c SPACE) eqn:Hc.
  - apply Ascii.eqb_eq in Hc as ->.
    destruct (split_space x) as [|w ws]; [done|].
    change (join_space ("" :: w :: ws))
      with ("" +:+ String SPACE (join_space (w :: ws))).
    by rewrite IH.
  - destruct (split_space x) as [|w ws]; [done|].
    rewrite <- IH. by destruct ws.
Qed.

Lemma zsum_cons (a : Z) (l : list Z) : zsum (a :: l) = a + zsum l.
Proof. reflexivity. Qed.

Lemma join_space_length (words : list string) :
  words ≠ [] →
  Z.of_nat (String.length (join_space words)) = zsum (len1 <$> words) - 1.
Proof.
  induction words as [|w ws IH]; [done|]. intros _.
  rewrite fmap_cons, zsum_cons. unfold len1 at 1.
  destruct ws as [|w' ws].
  - change (zsum (len1 <$> [])) with 0.
    change (join_space [w]) with w. lia.
  - change (join_space (w :: w' :: ws))
      with (w +:+ String SPACE (join_space (w' :: ws))).
    rewrite string_length_append.
    change (String.length (String SPACE (join_space (w' :: ws))))
      with (S (String.length (join_space (w' :: ws)))).
    specialize (IH ltac:(done)). lia.
Qed.

Lemma zsum_alter_pred (l : list Z) (i : nat) :
  (i < length l)%nat → zsum (alter (λ v, v - 1) i l) = zsum l - 1.
Proof.
  revert i. induction l as [|a l IH]; intros i Hi; simpl in Hi; [lia|].
  destruct i as [|i].
  - change (alter (λ v, v - 1) 0%nat (a :: l)) with ((a - 1) :: l).
    rewrite !zsum_cons. lia.
  - change (alter (λ v, v - 1) (S i) (a :: l))
      with (a :: alter (λ v, v - 1) i l).
    rewrite !zsum_cons, IH by lia. lia.
Qed.

(** The partial sums of [lens] once its last entry has lost 1. *)
Lemma zsum_take_alter_last (l : list Z) (j : nat) :
  l ≠ [] → (j ≤ length l)%nat →
  zsum (take j (alter (λ v, v - 1) (length l - 1)%nat l))
  = zsum (take j l) - (if decide (j = length l) then 1 else 0).
Proof.
  intros Hne Hj.
  assert (0 < length l)%nat by (destruct l; [done | simpl; lia]).
  destruct (decide (j = length l)) as [->|Hlt].
  - rewrite take_ge by (rewrite length_alter; lia).
    rewrite take_ge by lia. apply zsum_alter_pred. lia.
  - rewrite take_alter_ge by lia. lia.
Qed.

Lemma words_below_nil (n acc : Z) (words : list string) (lens : list Z) :
  n ≤ acc → Forall (λ l, 0 ≤ l) lens →
  words_below n words (cumsum_from acc lens) = [].
Proof.
  intros Hacc Hlens. revert acc words Hacc.
  induction Hlens as [|l lens Hl _ IH]; intros acc words Hacc.
  - by destruct words.
  - destruct words as [|w words]; [done|].
    unfold words_below in *. simpl.
    destruct (Z.ltb_spec (acc + l) n); [lia|].
    apply IH. lia.
Qed.

(** The words kept are the first [m] words, and when words are kept the
    running length at the last one kept is below [n]. *)
Lemma words_below_prefix (n acc : Z) (words : list string) (lens : list Z) :
  length words = length lens →
  Forall (λ l, 0 ≤ l) (tail lens) →
  ∃ m, (m ≤ length words)%nat ∧
       words_below n words (cumsum_from acc lens) = take m words ∧
       (m = 0%nat ∨ acc + zsum (take m lens) < n).
Proof.
  revert acc lens. induction words as [|w words IH]; intros acc lens Hlen Hpos.
  - exists 0%nat. split; [done|]. split; [by destruct lens | by left].
  - destruct lens as [|l lens]; [done|].
    simpl in Hlen, Hpos.
    unfold words_below. simpl.
    destruct (Z.ltb_spec (acc + l) n) as [Hlt|Hge].
    + destruct (IH (acc + l) lens) as (m & Hm & Heq & Hc).
      { lia. }
      { destruct Hpos; [constructor | done]. }
      exists (S m). split; [simpl; lia|]. split.
      * simpl. f_equal. exact Heq.
      * right. simpl. destruct Hc as [->|Hc]; simpl; lia.
    + exists 0%nat. split; [lia|]. split; [|by left].
      apply (words_below_nil n (acc + l) words lens); [lia | done].
Qed.

Lemma py_index_first (len : nat) : (0 < len)%nat → py_index len 0 = Ok 0%nat.
Proof.
  intros Hlen. unfold py_index. simpl.
  destruct (Z.ltb_spec 0 (Z.of_nat len)); [done | lia].
Qed.

Lemma py_index_last (len : nat) :
  (0 < len)%nat → py_index len (-1) = Ok (len - 1)%nat.
Proof.
  intros Hlen. unfold py_index. simpl.
  destruct (Z.leb_spec 0 (-1 + Z.of_nat len)); [|lia].
  destruct (Z.ltb_spec (-1 + Z.of_nat len) (Z.of_nat len)); [|lia].
  simpl. f_equal. lia.
Qed.

Lemma clip_unfold (x : string) (n : Z) :
  clip x n
  = Ok (join_space (words_below n (split_space x)
                      (np_cumsum (adjusted_lens (split_space x))))).
Proof.
  unfold clip, isub_item, adjusted_lens.
  pose proof (split_space_nonempty x) as Hne.
  assert (0 < length (split_space x))%nat as Hlen.
  { destruct (split_space x); [done | simpl; lia]. }
  fold len1. change (λ word, len1 word) with len1.
  rewrite py_index_first by (by rewrite length_fmap).
  simpl. rewrite length_alter, length_fmap.
  rewrite py_index_last by done. done.
Qed.

(** What one turn of [LenClip] returns: the first [m] words of [x] for some
    [m], joined; unless no word is kept, the result is shorter than [n],
    or exactly as long as [n] allows when every word is kept. *)
Lemma clip_prefix (x : string) (n : Z) :
  ∃ m, (m ≤ length (split_space x))%nat ∧
       clip x n = Ok (join_space (take m (split_space x))) ∧
       (m = 0%nat ∨
        Z.of_nat (String.length (join_space (take m (split_space x))))
        < n + (if decide (m = length (split_space x)) then 1 else 0)).
Proof.
  rewrite clip_unfold. unfold np_cumsum.
  pose proof (split_space_nonempty x) as Hne.
  destruct (split_space x) as [|w ws]; [done|]. clear Hne.
  destruct ws as [|w' ws].
  - (* a single word *)
    unfold adjusted_lens, words_below, len1. simpl.
    destruct (Z.ltb_spec (0 + (Z.of_nat (String.length w) + 1 - 1 - 1)) n).
    + exists 1%nat. split; [lia|]. split; [done|]. right. simpl. lia.
    + exists 0%nat. split; [lia|]. split; [done|]. by left.
  - (* several words *)
    set (ws' := w' :: ws).
    assert (adjusted_lens (w :: ws')
            = (len1 w - 1)
              :: alter (λ v, v - 1) (length (len1 <$> ws') - 1)%nat
                   (len1 <$> ws')) as Hadj.
    { unfold adjusted_lens. rewrite length_fmap. simpl.
      by rewrite Nat.sub_0_r. }
    rewrite Hadj.
    destruct (words_below_prefix n 0 (w :: ws')
                ((len1 w - 1)
                 :: alter (λ v, v - 1) (length (len1 <$> ws') - 1)%nat
                      (len1 <$> ws')))
      as (m & Hm & Heq & Hc).
    { cbn [length]. by rewrite length_alter, !length_fmap. }
    { cbn [tail]. apply Forall_alter.
      - apply Forall_fmap, Forall_forall. intros u _. unfold len1. simpl. lia.
      - intros v Hv _. apply list_lookup_fmap_Some_1 in Hv as (u & -> & _).
        unfold len1. lia. }
    exists m. split; [done|]. split; [by rewrite Heq|].
    destruct Hc as [->|Hc]; [by left|]. right.
    destruct m as [|m]; [simpl in *; lia|].
    rewrite join_space_length by done.
    change (take (S m) (w :: ws')) with (w :: take m ws').
    change (take (S m) ((len1 w - 1)
              :: alter (λ v, v - 1) (length (len1 <$> ws') - 1)%nat
                   (len1 <$> ws')))
      with ((len1 w - 1)
              :: take m (alter (λ v, v - 1) (length (len1 <$> ws') - 1)%nat
                   (len1 <$> ws'))) in Hc.
    rewrite fmap_cons, zsum_cons, fmap_take.
    rewrite zsum_cons, zsum_take_alter_last in Hc;
      [|done | rewrite length_fmap;
               change (length (w :: ws')) with (S (length ws')) in Hm; lia].
    rewrite length_fmap in Hc.
    change (length (w :: ws')) with (S (length ws')).
    repeat case_decide; lia.
Qed.

Lemma prefix_nil (b : string) : String.prefix "" b = true.
Proof. by destruct b. Qed.

Lemma prefix_cons (c : Ascii.ascii) (a b : string) :
  String.prefix (String c a) (String c b) = String.prefix a b.
Proof. simpl. by destruct (Ascii.ascii_dec c c). Qed.

Lemma prefix_append_same (w a b : string) :
  String.prefix (w +:+ a) (w +:+ b) = String.prefix a b.
Proof.
  induction w as [|c w IH]; [done|].
  change (String.prefix (String c (w +:+ a)) (String c (w +:+ b))
          = String.prefix a b).
  by rewrite prefix_cons.
Qed.

Lemma prefix_append (a b : string) : String.prefix a (a +:+ b) = true.
Proof.
  induction a as [|c a IH]; [apply prefix_nil|].
  change (String.prefix (String c a) (String c (a +:+ b)) = true).
  by rewrite prefix_cons.
Qed.

(** The first words of a text, joined, are a prefix of the text. *)
Lemma join_take_prefix (words : list string) (m : nat) :
  String.prefix (join_space (take m words)) (join_space words) = true.
Proof.
  revert m. induction words as [|w ws IH]; intros m.
  - by destruct m.
  - destruct m as [|m]; [apply prefix_nil|].
    change (take (S m) (w :: ws)) with (w :: take m ws).
    specialize (IH m).
    destruct ws as [|w' ws].
    + rewrite take_nil. change (join_space [w]) with w.
      clear IH. induction w as [|c w IHw]; [done | by rewrite prefix_cons].
    + destruct m as [|m].
      * change (join_space (w :: take 0 (w' :: ws))) with w.
        change (join_space (w :: w' :: ws))
          with (w +:+ String SPACE (join_space (w' :: ws))).
        apply prefix_append.
      * change (take (S m) (w' :: ws)) with (w' :: take m ws) in *.
        change (join_space (w :: w' :: take m ws))
          with (w +:+ String SPACE (join_space (w' :: take m ws))).
        change (join_space (w :: w' :: ws))
          with (w +:+ String SPACE (join_space (w' :: ws))).
        by rewrite prefix_append_same, prefix_cons.
Qed.

Lemma for_each_Ok {A B} (f : A → result B) (P : A → B → Prop) (X : list A) :
  (∀ x, ∃ y, f x = Ok y ∧ P x y) →
  ∃ Xt, for_each f X = Ok Xt ∧ Forall2 P X Xt.
Proof.
  intros Hf. induction X as [|x X (Xt & HXt & HP)].
  - exists []. by split.
  - destruct (Hf x) as (y & Hy & Hxy).
    exists (y :: Xt). split; [|by constructor].
    simpl. rewrite Hy. simpl. by rewrite HXt.
Qed.

(** C5, as the specification states it, fails on a text that is exactly
    [N] characters long: it is returned whole, and its length is not
    strictly less than [N]. *)
Lemma LenClip_keeps_length_N :
  LenClip ["ab cd"; "hello"] 5 = Ok ["ab cd"; "hello"] ∧
  ¬ (Z.of_nat (String.length "ab cd") < 5).
Proof. split; [reflexivity | simpl; lia]. Qed.

(** C5, amended. [LenClip] returns one string per input string; each is
    made of the first words of its input, joined again on single spaces,
    hence a prefix of the input cut on a word boundary; its length is at
    most [N] (it is empty when [N] is not positive), and it is strictly
    less than [N] whenever [N] is positive and the string was cut. *)
Theorem LenClip_clips (X : list string) (n : Z) :
  ∃ Xc, LenClip X n = Ok Xc ∧
        Forall2 (λ x xc,
          (∃ m, xc = join_space (take m (split_space x))) ∧
          String.prefix xc x = true ∧
          Z.of_nat (String.length xc) ≤ Z.max 0 n ∧
          (xc ≠ x → 0 < n → Z.of_nat (String.length xc) < n)) X Xc.
Proof.
  apply for_each_Ok. intros x.
  destruct (clip_prefix x n) as (m & Hm & Hclip & Hlen).
  eexists. split; [exact Hclip|].
  split; [by exists m|]. split.
  { rewrite <- (join_split x) at 2. apply join_take_prefix. }
  assert (m = length (split_space x) →
          join_space (take m (split_space x)) = x) as Hall.
  { intros ->. rewrite firstn_all. apply join_split. }
  destruct Hlen as [->|Hlen].
  - simpl. split; [lia|]. intros _ Hn. exact Hn.
  - split.
    + case_decide; lia.
    + intros Hcut _. case_decide; [by destruct Hcut; apply Hall | lia].
Qed.

(** ** OneHot *)

Lemma Qmult_1_l_eq (q : Q) : (1 * q)%Q = q.
Proof. by destruct q as [[|p|p] d]. Qed.

Lemma foldl_Zmax_spec (l : list Z) (x : Z) :
  foldl Z.max x l ∈ x :: l ∧ Forall (λ y, y ≤ foldl Z.max x l) (x :: l).
Proof.
  revert x. induction l as [|y l IH]; intros x; simpl.
  - split; [by left | by repeat constructor].
  - destruct (IH (x `max` y)) as [Hin Hall].
    apply Forall_cons in Hall as [Hxy Hall]. split.
    + apply elem_of_cons in Hin as [Hin|Hin]; [|by do 2 right].
      rewrite Hin. destruct (Z.max_spec x y) as [[_ ->]|[_ ->]];
        [right; by left | by left].
    + repeat constructor; [lia | lia | done].
Qed.

Lemma py_index_nonneg (len : nat) (x : Z) :
  0 ≤ x < Z.of_nat len → py_index len x = Ok (Z.to_nat x).
Proof.
  intros Hx. unfold py_index.
  destruct (Z.ltb_spec x 0); [lia|].
  destruct (Z.leb_spec 0 x); [|lia].
  destruct (Z.ltb_spec x (Z.of_nat len)); [done | lia].
Qed.

Lemma set_hot_rows (ncols : nat) (row : list Q) (X : list Z) :
  Forall (λ x, 0 ≤ x < Z.of_nat ncols) X →
  set_hot ncols (replicate (length X) row) X
  = Ok ((λ x, <[Z.to_nat x := 1%Q]> row) <$> X).
Proof.
  induction 1 as [|x X Hx _ IH]; [done|].
  simpl. rewrite py_index_nonneg by done. simpl. by rewrite IH.
Qed.

(** With the class count left out and labels that are not negative,
    [OneHot] returns, and row [k] is the fill row with a 1 written at the
    label of sample [k]. *)
Lemma OneHot_default_rows (X : list Z) (negative_class : Q) (m : Z) :
  np_max X = Ok m → Forall (λ x, 0 ≤ x) X →
  OneHot X None negative_class
  = Ok (mk_ndarray (length X, Z.to_nat (m + 1))
          ((λ x, <[Z.to_nat x := 1%Q]>
                   (replicate (Z.to_nat (m + 1)) negative_class)) <$> X)).
Proof.
  intros Hmax Hpos. unfold OneHot. rewrite Hmax. simpl.
  destruct X as [|x X]; [done|].
  injection Hmax as Hm.
  destruct (foldl_Zmax_spec X x) as [_ Hle]. rewrite Hm in Hle.
  assert (0 ≤ m) as Hm0.
  { apply Forall_cons in Hle as [? _]. apply Forall_cons in Hpos as [? _]. lia. }
  unfold np_ones. destruct (Z.ltb_spec (m + 1) 0); [lia|].
  simpl. rewrite !fmap_replicate.
  rewrite Qmult_1_l_eq.
  pose proof (set_hot_rows (Z.to_nat (m + 1))
                (replicate (Z.to_nat (m + 1)) negative_class) (x :: X)) as Hset.
  simpl in Hset. rewrite Hset; [done|].
  apply Forall_forall. intros y Hy.
  pose proof (proj1 (Forall_forall _ _) Hle y Hy).
  pose proof (proj1 (Forall_forall _ _) Hpos y Hy). simpl in *. lia.
Qed.

(** C6. With the class count left out, [OneHot] on a non-empty array of
    labels that are not negative uses [max(X) + 1] classes: it returns a
    dense array of shape (number of samples, [max(X) + 1]) in which row [k]
    holds 1 at the label of sample [k] and the negative-class fill in every
    other column; and [OneHot([0, 2], n=3)] is [[1,0,0],[0,0,1]]. *)
Theorem OneHot_default (X : list Z) (negative_class : Q) :
  X ≠ [] → Forall (λ x, 0 ≤ x) X →
  ∃ m Xoh,
    (m ∈ X ∧ Forall (λ x, x ≤ m) X) ∧
    OneHot X None negative_class = Ok Xoh ∧
    shape Xoh = (length X, Z.to_nat (m + 1)) ∧
    dense Xoh ∧
    (∀ k x c, X !! k = Some x → (c < Z.to_nat (m + 1))%nat →
       rows Xoh !! k ≫= (.!! c)
       = Some (if decide (c = Z.to_nat x) then 1%Q else negative_class)) ∧
    OneHot [0; 2] (Some 3) 0
    = Ok (mk_ndarray (2, 3)%nat [[1; 0; 0]; [0; 0; 1]]%Q).
Proof.
  intros Hne Hpos. destruct X as [|x0 X]; [done|].
  set (m := foldl Z.max x0 X).
  destruct (foldl_Zmax_spec X x0) as [Hin Hle]. fold m in Hin, Hle.
  exists m. eexists. split; [done|].
  split; [by apply OneHot_default_rows|].
  split; [done|]. split; [|split; [|reflexivity]].
  - split; simpl; [by rewrite length_fmap|].
    constructor; [by rewrite length_insert, length_replicate|].
    apply Forall_fmap, Forall_forall. intros y _. simpl.
    by rewrite length_insert, length_replicate.
  - intros k x c Hk Hc. cbn [rows].
    rewrite list_lookup_fmap, Hk. simpl.
    assert (0 ≤ x ≤ m) as Hx.
    { apply list_elem_of_lookup_2 in Hk.
      pose proof (proj1 (Forall_forall _ _) Hle x Hk).
      pose proof (proj1 (Forall_forall _ _) Hpos x Hk). simpl in *. lia. }
    rewrite list_lookup_insert, length_replicate.
    rewrite lookup_replicate_2 by done.
    repeat case_decide; try done; lia.
Qed.

Lemma OneHot_default_witness :
  ∃ Xoh, OneHot [1; 0; 2] None 0 = Ok Xoh ∧ shape Xoh = (3, 3)%nat.
Proof.
  destruct (OneHot_default [1; 0; 2] 0 ltac:(discriminate)
              ltac:(repeat constructor; lia))
    as (m & Xoh & [Hin Hle] & HOk & Hshape & _).
  exists Xoh. split; [exact HOk|].
  assert (m = 2) as ->; [|exact Hshape].
  apply Forall_cons in Hle as [? Hle]. apply Forall_cons in Hle as [? Hle].
  apply Forall_cons in Hle as [? _].
  repeat (apply elem_of_cons in Hin as [->|Hin]); try lia.
  by apply elem_of_nil in Hin.
Defined.

(** ** Standardize *)

(** C7. Over the rationals [Standardize] maps every pixel value of
    [0, 255] into [-1, 1], and the inverse scaling [(y + 1) * 127.5] gives
    every value back exactly. *)
Theorem Standardize_inverse (X : list Q) :
  Forall (λ x, 0 <= x <= 255)%Q X →
  Forall (λ y, -1 <= y <= 1)%Q (Standardize X) ∧
  Forall2 Qeq (Unstandardize (Standardize X)) X.
Proof.
  intros HX. unfold Standardize, Unstandardize. split.
  - apply Forall_fmap. eapply Forall_impl; [exact HX|].
    intros x Hx. simpl in *. unfold Qdiv.
    change (/ 127.5)%Q with (10 # 1275)%Q. lra.
  - rewrite <- list_fmap_compose.
    apply Forall2_fmap_l, Forall_Forall2_diag, Forall_forall.
    intros x _. simpl. unfold Qdiv.
    change (/ 127.5)%Q with (10 # 1275)%Q. lra.
Qed.

Lemma Standardize_inverse_witness :
  Forall (λ y, -1 <= y <= 1)%Q (Standardize [0; 51; 255]%Q) ∧
  Forall2 Qeq (Unstandardize (Standardize [0; 51; 255]%Q)) [0; 51; 255]%Q.
Proof.
  apply (Standardize_inverse [0; 51; 255]%Q).
  repeat constructor; simpl; lra.
Defined.

(** ** Patch and CenterCrop *)

Section CropFacts.
Context {A : Type} `{PyRandom}.
Implicit Types (x : ndarray A) (X : list (ndarray A)).

(** One turn of [Patch] whose image is smaller than the patch raises. *)
Lemma Patch_head_too_large x X pw ph s :
  Z.of_nat (shape x).1 < pw ∨ Z.of_nat (shape x).2 < ph →
  Patch (x :: X) pw ph s = Raise ValueError.
Proof.
  intros Hlarge. simpl. destruct (shape x) as [w h]. simpl in Hlarge.
  destruct (Z_lt_le_dec (Z.of_nat w) pw) as [Hw|Hw].
  - rewrite randint_empty by lia. done.
  - destruct (randint_range 0 (Z.of_nat w - pw) s) as (i & s1 & -> & _);
      [lia|].
    simpl. rewrite randint_empty by lia. done.
Qed.

(** [Patch] raises nothing but [ValueError]: no slice raises. *)
Lemma Patch_raises_ValueError X pw ph s e :
  Patch X pw ph s = Raise e → e = ValueError.
Proof.
  revert s. induction X as [|x X IH]; intros s; simpl; [done|].
  destruct (shape x) as [w h].
  destruct (Z_lt_le_dec (Z.of_nat w) pw) as [Hw|Hw].
  { rewrite randint_empty by lia. simpl. congruence. }
  destruct (randint_range 0 (Z.of_nat w - pw) s) as (i & s1 & -> & _);
    [lia|]. simpl.
  destruct (Z_lt_le_dec (Z.of_nat h) ph) as [Hh|Hh].
  { rewrite randint_empty by lia. simpl. congruence. }
  destruct (randint_range 0 (Z.of_nat h - ph) s1) as (j & s2 & -> & _);
    [lia|]. simpl.
  destruct (Patch X pw ph s2) as [[Xt s3]|e'] eqn:HX; simpl; [done|].
  intros [= <-]. by apply (IH s2).
Qed.

Lemma Patch_too_large_raises X pw ph s x :
  x ∈ X →
  Z.of_nat (shape x).1 < pw ∨ Z.of_nat (shape x).2 < ph →
  Patch X pw ph s = Raise ValueError.
Proof.
  intros Hin Hlarge. revert s.
  induction Hin as [x X|x x' X Hin IH]; intros s.
  - by apply Patch_head_too_large.
  - destruct (Patch (x' :: X) pw ph s) as [[Xt s']|e] eqn:HP.
    + exfalso. simpl in HP. destruct (shape x') as [w h].
      destruct (randint 0 (Z.of_nat w - pw) s) as [[i s1]|]; [|done].
      simpl in HP.
      destruct (randint 0 (Z.of_nat h - ph) s1) as [[j s2]|]; [|done].
      simpl in HP. by rewrite IH in HP.
    + f_equal. by eapply Patch_raises_ValueError.
Qed.

(** What [Patch] returns when it returns: for each image a crop
    [x[i:i+pw, j:j+pw]] at offsets drawn from [0..w-pw] and [0..h-ph]. *)
Lemma Patch_crops X pw ph s Xt s' :
  Patch X pw ph s = Ok (Xt, s') →
  Forall2 (λ x xt, ∃ i j,
             0 ≤ i ≤ Z.of_nat (shape x).1 - pw ∧
             0 ≤ j ≤ Z.of_nat (shape x).2 - ph ∧
             xt = slice2 x i (i + pw) j (j + pw)) X Xt.
Proof.
  revert s Xt s'. induction X as [|x X IH]; intros s Xt s'; simpl.
  - intros [= <- <-]. constructor.
  - destruct (shape x) as [w h] eqn:Hsh.
    destruct (Z_lt_le_dec (Z.of_nat w) pw) as [Hw|Hw].
    { rewrite randint_empty by lia. done. }
    destruct (randint_range 0 (Z.of_nat w - pw) s) as (i & s1 & -> & Hi);
      [lia|]. simpl.
    destruct (Z_lt_le_dec (Z.of_nat h) ph) as [Hh|Hh].
    { rewrite randint_empty by lia. done. }
    destruct (randint_range 0 (Z.of_nat h - ph) s1) as (j & s2 & -> & Hj);
      [lia|]. simpl.
    destruct (Patch X pw ph s2) as [[Xt' s3]|e] eqn:HX; simpl; [|done].
    intros [= <- <-]. constructor; [|by eapply IH].
    exists i, j. by rewrite Hsh.
Qed.

Lemma CenterCrop_Ok X pw ph :
  CenterCrop X pw ph = Ok ((λ x, center_crop x pw ph) <$> X).
Proof.
  unfold CenterCrop. induction X as [|x X IH]; [done|].
  simpl. by rewrite IH.
Qed.

Lemma slice_bound_inside (len : nat) (k : Z) :
  0 ≤ k ≤ Z.of_nat len → slice_bound len k = Z.to_nat k.
Proof.
  intros Hk. unfold slice_bound.
  destruct (Z.ltb_spec k 0); [lia|]. f_equal. lia.
Qed.

(** The second dimension of the crop: the length of the slice [j:j+pw]
    of the second axis, which is [pw] when the slice fits. *)
Lemma slice2_columns x i j pw :
  (shape (slice2 x i (i + pw) j (j + pw))).2
  = (slice_bound (shape x).2 (j + pw) - slice_bound (shape x).2 j)%nat.
Proof. unfold slice2. by destruct (shape x). Qed.

Lemma slice2_columns_fit x i j pw :
  0 ≤ pw → 0 ≤ j → j + pw ≤ Z.of_nat (shape x).2 →
  (shape (slice2 x i (i + pw) j (j + pw))).2 = Z.to_nat pw.
Proof.
  intros Hpw Hj Hfit. rewrite slice2_columns.
  rewrite !slice_bound_inside by lia. lia.
Qed.
End CropFacts.

(** The example of the specification: a (10, 10) image and a (4, 4) crop
    give the offsets (3, 3). *)
Example center_offsets_10_4 :
  center_offsets (mk_ndarray (10, 10)%nat (replicate 10 (replicate 10 0))) 4 4
  = (3, 3).
Proof. reflexivity. Qed.

(** C8, as the specification states it, fails for [CenterCrop]: on a
    2 x 2 image and a 4 x 4 crop the offsets are (-1, -1), the slice
    [x[-1:3, -1:3]] is clamped to the last pixel, and nothing is raised. *)
Lemma CenterCrop_too_large_returns :
  CenterCrop [mk_ndarray (2, 2)%nat [[1; 2]; [3; 4]]] 4 4
  = Ok [mk_ndarray (1, 1)%nat [[4]]] ∧
  ∀ e, CenterCrop [mk_ndarray (2, 2)%nat [[1; 2]; [3; 4]]] 4 4 ≠ Raise e.
Proof. split; [reflexivity | discriminate]. Qed.

(** C8, amended. When [Patch] is called with a patch wider or taller than
    one of the images, the call fails with the error the random source
    raises for the empty range of offsets, an InvalidInputError
    ([ValueError]).  [CenterCrop] checks nothing and never fails: it
    returns, for each image, the slice at its centred offsets. *)
Theorem Patch_too_large {A : Type} `{PyRandom} (X : list (ndarray A))
    (pw ph : Z) (s : rng_state) (x : ndarray A) :
  x ∈ X →
  Z.of_nat (shape x).1 < pw ∨ Z.of_nat (shape x).2 < ph →
  (∃ e, Patch X pw ph s = Raise e ∧ InvalidInputError e = true) ∧
  CenterCrop X pw ph = Ok ((λ x, center_crop x pw ph) <$> X).
Proof.
  intros Hin Hlarge. split; [|apply CenterCrop_Ok].
  exists ValueError. split; [|done].
  by eapply Patch_too_large_raises.
Qed.

Lemma Patch_too_large_witness :
  (∃ e, Patch (H := lcg) [mk_ndarray (2, 2)%nat [[1; 2]; [3; 4]]] 4 4 42
        = Raise e ∧ InvalidInputError e = true) ∧
  CenterCrop [mk_ndarray (2, 2)%nat [[1; 2]; [3; 4]]] 4 4
  = Ok [mk_ndarray (1, 1)%nat [[4]]].
Proof.
  apply (Patch_too_large (H := lcg)
           [mk_ndarray (2, 2)%nat [[1; 2]; [3; 4]]] 4 4 42
           (mk_ndarray (2, 2)%nat [[1; 2]; [3; 4]])).
  - by left.
  - left. simpl. lia.
Defined.

(** C10, as stated, fails: through the column offset [ph] does change the
    extent of the crop.  On a 4 x 4 image with [pw = 4], [CenterCrop]
    returns 3 columns for [ph = 2] (offset 1, slice [1:5] clamped) and
    4 columns for [ph = 4] (offset 0). *)
Lemma CenterCrop_ph_changes_extent :
  CenterCrop [mk_ndarray (4, 4)%nat
                [[0; 1; 2; 3]; [10; 11; 12; 13];
                 [20; 21; 22; 23]; [30; 31; 32; 33]]] 4 2
  = Ok [mk_ndarray (4, 3)%nat
          [[1; 2; 3]; [11; 12; 13]; [21; 22; 23]; [31; 32; 33]]] ∧
  CenterCrop [mk_ndarray (4, 4)%nat
                [[0; 1; 2; 3]; [10; 11; 12; 13];
                 [20; 21; 22; 23]; [30; 31; 32; 33]]] 4 4
  = Ok [mk_ndarray (4, 4)%nat
          [[0; 1; 2; 3]; [10; 11; 12; 13];
           [20; 21; 22; 23]; [30; 31; 32; 33]]].
Proof. split; reflexivity. Qed.

(** C10, amended. [Patch] and [CenterCrop] both take the crop
    [x[i:i+pw, j:j+pw]]: the second axis is sliced with [pw], and [ph] is
    used only for the column offset [j] ([round((h-ph)/2)] in
    [CenterCrop], a draw from [0..h-ph] in [Patch]).  The second dimension
    of the crop is the length of the slice [j:j+pw] of that axis: it is
    [pw] when the slice lies inside the image, and less when the slice is
    clamped at the border. *)
Theorem crops_slice_with_pw {A : Type} `{PyRandom} (X : list (ndarray A))
    (pw ph : Z) :
  CenterCrop X pw ph
  = Ok ((λ x, let '(i, j) := (round_half (Z.of_nat (shape x).1 - pw),
                              round_half (Z.of_nat (shape x).2 - ph)) in
              slice2 x i (i + pw) j (j + pw)) <$> X) ∧
  (∀ s Xt s', Patch X pw ph s = Ok (Xt, s') →
     Forall2 (λ x xt, ∃ i j,
                0 ≤ i ≤ Z.of_nat (shape x).1 - pw ∧
                0 ≤ j ≤ Z.of_nat (shape x).2 - ph ∧
                xt = slice2 x i (i + pw) j (j + pw)) X Xt) ∧
  (∀ (x : ndarray A) i j,
     (shape (slice2 x i (i + pw) j (j + pw))).2
     = (slice_bound (shape x).2 (j + pw) - slice_bound (shape x).2 j)%nat) ∧
  (∀ (x : ndarray A) i j,
     0 ≤ pw → 0 ≤ j → j + pw ≤ Z.of_nat (shape x).2 →
     (shape (slice2 x i (i + pw) j (j + pw))).2 = Z.to_nat pw).
Proof.
  split; [|split; [|split]].
  - rewrite CenterCrop_Ok. f_equal. apply list_fmap_ext. intros _ x _.
    unfold center_crop, center_offsets. by destruct (shape x).
  - intros s Xt s'. apply Patch_crops.
  - intros x i j. apply slice2_columns.
  - intros x i j. apply slice2_columns_fit.
Qed.

(** ** StringToCharacterCNNRNNRep *)

Lemma call_one_hot_NameError (x : list Z) (nc : Z) :
  call_global "one_hot" x nc = Raise NameError.
Proof. reflexivity. Qed.

Lemma call_OneHot (x : list Z) (nc : Z) :
  call_global "OneHot" x nc = OneHot x (Some nc) 0.
Proof. reflexivity. Qed.

Lemma chars_length (x : string) : length (chars x) = String.length x.
Proof. induction x as [|c x IH]; simpl; [done | by rewrite IH]. Qed.

Lemma for_each_fmap {A B} (f : A → result B) (g : A → B) (X : list A) :
  (∀ x, x ∈ X → f x = Ok (g x)) → for_each f X = Ok (g <$> X).
Proof.
  induction X as [|x X IH]; intros Hf; [done|].
  cbn [for_each]. rewrite Hf by (by left). cbn [mbind result_bind].
  rewrite IH; [done|]. intros y Hy. apply Hf. by right.
Qed.

Lemma OneHot_n_rows (codes : list Z) (nc : nat) :
  Forall (λ v, 0 ≤ v < Z.of_nat nc) codes →
  OneHot codes (Some (Z.of_nat nc)) 0
  = Ok (mk_ndarray (length codes, nc) (one_hot_rows nc codes)).
Proof.
  intros Hcodes. unfold OneHot, np_ones. cbn [mbind result_bind].
  destruct (Z.ltb_spec (Z.of_nat nc) 0); [lia|].
  cbn [mbind result_bind np_scale shape rows snd].
  rewrite Nat2Z.id, !fmap_replicate, Qmult_1_l_eq.
  by rewrite set_hot_rows.
Qed.

(** Had the source called its encoder [OneHot], C9 would hold: on a batch
    that is not empty, with codes of the mapping within its size, the
    function returns an array of shape (samples, 1, max_len, classes) in
    which each string is its one-hot rows with [max_len - len(x)] rows of
    zeros before them, [max_len] being the longest length of the batch. *)
Lemma StringToCharacterCNNRNNRep_calling_OneHot (X : list string)
    (encoder : gmap Ascii.ascii Z) :
  X ≠ [] →
  (∀ c v, encoder !! c = Some v → 0 ≤ v ≤ Z.of_nat (size encoder)) →
  StringToCharacterCNNRNNRep_calling "OneHot" X encoder
  = Ok (mk_ndarray4
          (length X, 1%nat, max_list (String.length <$> X), S (size encoder))
          ((λ x, [replicate (max_list (String.length <$> X) - String.length x)
                    (replicate (S (size encoder)) 0%Q)
                  ++ one_hot_rows (S (size encoder)) (encode encoder x)])
             <$> X)).
Proof.
  intros Hne Henc. unfold StringToCharacterCNNRNNRep_calling.
  set (nc := S (size encoder)). set (max_len := max_list (String.length <$> X)).
  rewrite py_max_Ok by (by destruct X). cbn [mbind result_bind].
  fold max_len.
  set (g := λ x : string,
         mk_ndarray (max_len, nc)
           (replicate (max_len - String.length x) (replicate nc 0%Q)
            ++ one_hot_rows nc (encode encoder x))).
  rewrite (for_each_fmap _ g).
  - cbn [mbind result_bind]. unfold stack_reshape.
    assert (forallb (λ a : ndarray Q,
              Nat.eqb (shape a).1 max_len && Nat.eqb (shape a).2 nc)
              (g <$> X) = true) as ->.
    { apply forallb_forall. intros a Ha.
      apply list_elem_of_In, list_elem_of_fmap in Ha as (x & -> & _).
      simpl. by rewrite !Nat.eqb_refl. }
    by rewrite length_fmap, <- list_fmap_compose.
  - intros x Hx. rewrite call_OneHot. fold (encode encoder x).
    assert (Forall (λ v, 0 ≤ v < Z.of_nat nc) (encode encoder x)) as Hcodes.
    { apply Forall_fmap, Forall_forall. intros c _. simpl.
      destruct (encoder !! c) as [v|] eqn:Hc; simpl; [|lia].
      specialize (Henc c v Hc). lia. }
    rewrite (OneHot_n_rows _ nc Hcodes). cbn [mbind result_bind shape fst].
    assert (length (encode encoder x) = String.length x) as Hl.
    { unfold encode. by rewrite length_fmap, chars_length. }
    assert (String.length x ≤ max_len)%nat as Hle.
    { apply max_list_elem_of_le, list_elem_of_fmap. by exists x. }
    rewrite Hl. unfold g.
    destruct (Nat.eqb_spec (String.length x) max_len) as [Heq|Hneq].
    + by rewrite Heq, Nat.sub_diag.
    + unfold np_concatenate, np_zeros. cbn [shape rows fst snd].
      rewrite Nat.eqb_refl. do 3 f_equal. lia.
Qed.

(** C9 does not hold of the source: the function calls [one_hot], a name
    the module does not bind (its encoder is [OneHot]), so on every batch
    that is not empty the first turn of the loop raises [NameError]; on an
    empty batch [max] raises [ValueError].  No input makes it return. *)
Theorem StringToCharacterCNNRNNRep_raises (X : list string)
    (encoder : gmap Ascii.ascii Z) :
  StringToCharacterCNNRNNRep X encoder
  = Raise (match X with [] => ValueError | _ :: _ => NameError end).
Proof.
  unfold StringToCharacterCNNRNNRep, StringToCharacterCNNRNNRep_calling.
  destruct X as [|x X]; [reflexivity|].
  rewrite fmap_cons. cbn [py_max mbind result_bind for_each].
  by rewrite call_one_hot_NameError.
Qed.

(** Had the source called [OneHot], the batch below would be padded at the
    front as C9 says: "a" is one row of zeros, then the row of [a]. *)
Example StringToCharacterCNNRNNRep_intended :
  StringToCharacterCNNRNNRep_calling "OneHot" ["ab"; "a"]
    {[ Ascii.ascii_of_nat 97 := 1 ]}
  = Ok (mk_ndarray4 (2, 1, 2, 2)%nat
          [[[[0; 1]; [1; 0]]]; [[[0; 0]; [0; 1]]]]%Q).
Proof. vm_compute. reflexivity. Qed.

(** * Further properties of the transforms *)

(** ** SeqPadded: placement and alignment *)

(** Whatever is not "front" pads like "back": the placement is compared
    with "front" and never rejected. *)
Theorem SeqPadded_other_placement (seqs : list (list Z)) (placement : string) :
  placement ≠ "front" →
  SeqPadded seqs placement = SeqPadded seqs "back".
Proof.
  intros Hp. apply String.eqb_neq in Hp.
  unfold SeqPadded. destruct (py_max (length <$> seqs)) as [m|e]; [|done].
  cbn [mbind result_bind]. do 2 f_equal.
  apply list_fmap_ext. intros _ [seq n] _. unfold pad_seq. by rewrite Hp.
Qed.

Lemma SeqPadded_other_placement_witness :
  SeqPadded [[1]; [1; 2; 3]] "middle" = SeqPadded [[1]; [1; 2; 3]] "back".
Proof. apply SeqPadded_other_placement. discriminate. Defined.

Lemma max_len_of_equal (seqs : list (list Z)) (n : nat) :
  seqs ≠ [] → Forall (λ seq, length seq = n) seqs → max_len_of seqs = n.
Proof.
  intros Hne Hlen. unfold max_len_of.
  induction Hlen as [|s seqs Hs Hlen IH]; [done|].
  csimpl. rewrite Hs. destruct seqs as [|s' seqs]; [simpl; lia|].
  rewrite IH by done. lia.
Qed.

(** When the sequences of a batch all have one length nothing is padded:
    the result is the transposed batch, whatever the placement. *)
Theorem SeqPadded_equal_lengths (seqs : list (list Z)) (placement : string)
    (n : nat) :
  seqs ≠ [] →
  Forall (λ seq, length seq = n) seqs →
  SeqPadded seqs placement
  = Ok (transpose (mk_ndarray (length seqs, n) seqs)).
Proof.
  intros Hne Hlen. rewrite SeqPadded_Ok by done.
  rewrite (max_len_of_equal seqs n) by done. do 3 f_equal.
  unfold padded_rows. rewrite (max_len_of_equal seqs n) by done.
  clear Hne. induction Hlen as [|s seqs Hs _ IH]; [done|].
  csimpl. by rewrite pad_seq_full, IH.
Qed.

Lemma SeqPadded_equal_lengths_witness :
  SeqPadded [[1; 2]; [3; 4]; [5; 6]] "front"
  = Ok (mk_ndarray (2, 3)%nat [[1; 3; 5]; [2; 4; 6]]).
Proof.
  rewrite (SeqPadded_equal_lengths [[1; 2]; [3; 4]; [5; 6]] "front" 2);
    [reflexivity | discriminate | by repeat constructor].
Defined.

(** Entry [(i, j)] of the transposed rows is entry [i] of row [j]. *)
Lemma transpose_entry {A} (l : list (list A)) (n m i j : nat) (r : list A) :
  Forall (λ r, length r = m) l →
  l !! j = Some r → (i < m)%nat →
  rows (transpose (mk_ndarray (n, m) l)) !! i ≫= (.!! j) = r !! i.
Proof.
  intros Hl Hj Hi. unfold transpose. cbn [rows shape snd].
  rewrite list_lookup_fmap, lookup_seq_lt by done. simpl.
  rewrite column_lookup, Hj; [done|].
  eapply Forall_impl; [exact Hl|]. simpl. intros; lia.
Qed.

(** Padding at the front aligns the ends of the sequences: the last row of
    the batch holds the last token of every sequence that is not empty.
    Any other placement aligns the starts: the first row holds the first
    tokens. *)
Theorem SeqPadded_aligned (seqs : list (list Z)) (placement : string)
    (j : nat) (seq : list Z) :
  seqs !! j = Some seq → seq ≠ [] →
  ∃ a, SeqPadded seqs placement = Ok a ∧
       (placement = "front" →
        rows a !! (max_list (length <$> seqs) - 1)%nat ≫= (.!! j)
        = last seq) ∧
       (placement ≠ "front" → rows a !! 0%nat ≫= (.!! j) = head seq).
Proof.
  intros Hj Hne. eexists. split.
  { apply SeqPadded_Ok. intros ->. discriminate. }
  assert (0 < length seq)%nat as Hpos by (destruct seq; [done | simpl; lia]).
  assert (length seq ≤ max_len_of seqs)%nat as Hle.
  { apply max_len_of_ge. by eapply list_elem_of_lookup_2. }
  assert (padded_rows seqs placement !! j
          = Some (pad_seq placement (max_len_of seqs) seq (length seq)))
    as Hrow.
  { unfold padded_rows. by rewrite list_lookup_fmap, Hj. }
  pose proof (padded_rows_rectangular seqs placement) as Hrect.
  fold (max_len_of seqs). split; intros Hp.
  - rewrite (transpose_entry _ _ _ _ _ _ Hrect Hrow) by lia.
    unfold pad_seq. subst placement. simpl String.eqb. cbv iota.
    rewrite lookup_app_r by (rewrite length_replicate; lia).
    rewrite length_replicate, last_lookup. f_equal. lia.
  - rewrite (transpose_entry _ _ _ _ _ _ Hrect Hrow) by lia.
    unfold pad_seq. apply String.eqb_neq in Hp. rewrite Hp.
    rewrite lookup_app_l by lia. by rewrite head_lookup.
Qed.

Lemma SeqPadded_aligned_witness :
  ∃ a, SeqPadded [[7; 8]; [1; 2; 3]] "front" = Ok a ∧
       rows a !! 2%nat ≫= (.!! 0%nat) = Some 8.
Proof.
  destruct (SeqPadded_aligned [[7; 8]; [1; 2; 3]] "front" 0 [7; 8]
              eq_refl ltac:(discriminate)) as (a & Ha & Hfront & _).
  exists a. split; [exact Ha|]. exact (Hfront eq_refl).
Defined.

(** ** OneHot: explicit class count, wrap-around and errors *)

Lemma py_index_in_range (len : nat) (x : Z) :
  - Z.of_nat len ≤ x < Z.of_nat len →
  py_index len x = Ok (Z.to_nat (x mod Z.of_nat len)).
Proof.
  intros Hx. unfold py_index.
  destruct (Z.ltb_spec x 0).
  - destruct (Z.leb_spec 0 (x + Z.of_nat len)); [|lia].
    destruct (Z.ltb_spec (x + Z.of_nat len) (Z.of_nat len)); [|lia].
    simpl. do 2 f_equal.
    rewrite <- (Z.mod_small (x + Z.of_nat len) (Z.of_nat len)) by lia.
    rewrite <- (Z_mod_plus_full x 1 (Z.of_nat len)). f_equal. lia.
  - destruct (Z.leb_spec 0 x); [|lia].
    destruct (Z.ltb_spec x (Z.of_nat len)); [|lia].
    simpl. by rewrite Z.mod_small by lia.
Qed.

Lemma py_index_out_of_range (len : nat) (x : Z) :
  x < - Z.of_nat len ∨ Z.of_nat len ≤ x →
  py_index len x = Raise IndexError.
Proof.
  intros Hx. unfold py_index.
  destruct (Z.ltb_spec x 0).
  - destruct (Z.leb_spec 0 (x + Z.of_nat len)); [lia | done].
  - destruct (Z.leb_spec 0 x); [|done].
    destruct (Z.ltb_spec x (Z.of_nat len)); [lia | done].
Qed.

Lemma set_hot_wrapped (ncols : nat) (row : list Q) (X : list Z) :
  Forall (λ x, - Z.of_nat ncols ≤ x < Z.of_nat ncols) X →
  set_hot ncols (replicate (length X) row) X
  = Ok ((λ x, <[Z.to_nat (x mod Z.of_nat ncols) := 1%Q]> row) <$> X).
Proof.
  induction 1 as [|x X Hx _ IH]; [done|].
  cbn [length replicate set_hot]. rewrite py_index_in_range by done.
  cbn [mbind result_bind]. by rewrite IH.
Qed.

Lemma set_hot_IndexError (ncols : nat) (row : list Q) (X : list Z) :
  Exists (λ x, x < - Z.of_nat ncols ∨ Z.of_nat ncols ≤ x) X →
  set_hot ncols (replicate (length X) row) X = Raise IndexError.
Proof.
  induction 1 as [x X Hx|x X _ IH]; cbn [length replicate set_hot].
  - by rewrite py_index_out_of_range.
  - destruct (py_index ncols x) as [c|e] eqn:Hc.
    + cbn [mbind result_bind]. by rewrite IH.
    + unfold py_index in Hc.
      destruct (_ && _); [done|]. by injection Hc as <-.
Qed.

Lemma OneHot_Some_unfold (X : list Z) (n : Z) (negative_class : Q) :
  0 ≤ n →
  OneHot X (Some n) negative_class
  = rs ← set_hot (Z.to_nat n)
          (replicate (length X) (replicate (Z.to_nat n) negative_class)) X;
    Ok (mk_ndarray (length X, Z.to_nat n) rs).
Proof.
  intros Hn. unfold OneHot, np_ones. cbn [mbind result_bind].
  destruct (Z.ltb_spec n 0); [lia|].
  cbn [mbind result_bind np_scale shape rows snd].
  by rewrite !fmap_replicate, Qmult_1_l_eq.
Qed.



(** A label outside [-n .. n - 1] makes [OneHot] raise [IndexError]. *)
Theorem OneHot_label_out_of_range (X : list Z) (n : Z) (negative_class : Q) :
  0 ≤ n →
  Exists (λ x, x < - n ∨ n ≤ x) X →
  OneHot X (Some n) negative_class = Raise IndexError.
Proof.
  intros Hn HX. rewrite OneHot_Some_unfold by done.
  rewrite set_hot_IndexError; [done|].
  eapply Exists_impl; [exact HX|]. simpl. intros x Hx.
  rewrite Z2Nat.id by done. lia.
Qed.

Lemma OneHot_label_out_of_range_witness :
  OneHot [0; 3] (Some 3) 0 = Raise IndexError.
Proof.
  apply OneHot_label_out_of_range; [lia|].
  apply Exists_cons_tl, Exists_cons_hd. lia.
Defined.

(** Without labels there is no default class count, and a negative class
    count is no dimension: both raise [ValueError]. *)
Theorem OneHot_ValueError (X : list Z) (n : Z) (negative_class : Q) :
  OneHot [] None negative_class = Raise ValueError ∧
  (n < 0 → OneHot X (Some n) negative_class = Raise ValueError).
Proof.
  split; [reflexivity|]. intros Hn.
  unfold OneHot, np_ones. cbn [mbind result_bind].
  by destruct (Z.ltb_spec n 0); [|lia].
Qed.

(** The label of a sample can be read back from its row: unless the fill
    value is itself 1, the entry of row [k] in column [c] is 1 exactly when
    [c] is the label [X[k]]. *)
Theorem OneHot_label_recoverable (X : list Z) (n : Z) (negative_class : Q)
    (k : nat) (x : Z) (c : nat) :
  0 ≤ n →
  Forall (λ x, 0 ≤ x < n) X →
  ¬ (negative_class == 1)%Q →
  X !! k = Some x →
  (c < Z.to_nat n)%nat →
  ∃ Xoh v, OneHot X (Some n) negative_class = Ok Xoh ∧
           rows Xoh !! k ≫= (.!! c) = Some v ∧
           ((v == 1)%Q ↔ c = Z.to_nat x).
Proof.
  intros Hn HX Hfill Hk Hc.
  assert (0 ≤ x < n) as Hx.
  { apply (proj1 (Forall_forall _ _) HX). by eapply list_elem_of_lookup_2. }
  rewrite OneHot_Some_unfold by done. rewrite set_hot_wrapped.
  2:{ eapply Forall_impl; [exact HX|]. simpl. intros y Hy.
      rewrite Z2Nat.id by done. lia. }
  cbn [mbind result_bind].
  eexists _, (if decide (c = Z.to_nat x) then 1%Q else negative_class).
  split; [reflexivity|]. split.
  - cbn [rows]. rewrite list_lookup_fmap, Hk.
    cbn [fmap option_fmap option_map mbind option_bind].
    rewrite Z2Nat.id, Z.mod_small by lia.
    rewrite list_lookup_insert, length_replicate.
    rewrite lookup_replicate_2 by done.
    repeat case_decide; try done; lia.
  - case_decide; [done|]. split; [done | by intros ->].
Qed.

Lemma OneHot_label_recoverable_witness :
  ∃ Xoh v, OneHot [2; 0] (Some 3) 0 = Ok Xoh ∧
           rows Xoh !! 0%nat ≫= (.!! 2%nat) = Some v ∧
           ((v == 1)%Q ↔ 2%nat = Z.to_nat 2).
Proof.
  apply (OneHot_label_recoverable [2; 0] 3 0 0 2 2).
  - lia.
  - repeat constructor; lia.
  - discriminate.
  - reflexivity.
  - simpl. lia.
Defined.

(** ** LenClip: texts that fit, and clipping twice *)

Lemma zsum_nonneg (l : list Z) : Forall (λ v, 0 ≤ v) l → 0 ≤ zsum l.
Proof.
  induction 1 as [|v l Hv _ IH]; [done|]. rewrite zsum_cons. lia.
Qed.

Lemma words_below_all (n acc : Z) (words : list string) (lens : list Z) :
  length words = length lens →
  Forall (λ l, 0 ≤ l) (tail lens) →
  acc + zsum lens < n →
  words_below n words (cumsum_from acc lens) = words.
Proof.
  revert acc lens. induction words as [|w words IH]; intros acc lens Hlen Hpos Hsum.
  - by destruct lens.
  - destruct lens as [|l lens]; [done|].
    cbn [tail] in Hpos. rewrite zsum_cons in Hsum.
    pose proof (zsum_nonneg lens Hpos).
    unfold words_below. cbn [cumsum_from zip_with omap list_omap].
    destruct (Z.ltb_spec (acc + l) n); [|lia].
    f_equal. apply IH.
    + simpl in Hlen. lia.
    + destruct Hpos; [constructor | done].
    + lia.
Qed.

Lemma adjusted_lens_tail_nonneg (words : list string) :
  Forall (λ l, 0 ≤ l) (tail (adjusted_lens words)).
Proof.
  destruct words as [|w [|w' ws]]; [constructor | constructor |].
  unfold adjusted_lens.
  change (alter (λ v, v - 1) (length (w :: w' :: ws) - 1)%nat
            (alter (λ v, v - 1) 0%nat (len1 <$> w :: w' :: ws)))
    with ((len1 w - 1)
          :: alter (λ v, v - 1) (length ws) (len1 <$> w' :: ws)).
  cbn [tail]. apply Forall_alter.
  - apply Forall_fmap, Forall_forall. intros u _. unfold len1. simpl. lia.
  - intros v Hv _. apply list_lookup_fmap_Some_1 in Hv as (u & -> & _).
    unfold len1. lia.
Qed.

Lemma zsum_adjusted_lens (words : list string) :
  words ≠ [] →
  zsum (adjusted_lens words)
  = Z.of_nat (String.length (join_space words)) - 1.
Proof.
  intros Hne. rewrite join_space_length by done.
  assert (0 < length words)%nat by (destruct words; [done | simpl; lia]).
  unfold adjusted_lens.
  rewrite !zsum_alter_pred; rewrite ?length_alter, ?length_fmap; lia.
Qed.

(** A text that fits is returned as it is. *)
Lemma clip_fits (x : string) (n : Z) :
  Z.of_nat (String.length x) ≤ n → clip x n = Ok x.
Proof.
  intros Hfit. rewrite clip_unfold. unfold np_cumsum.
  pose proof (split_space_nonempty x) as Hne.
  rewrite words_below_all.
  - by rewrite join_split.
  - unfold adjusted_lens. by rewrite !length_alter, length_fmap.
  - apply adjusted_lens_tail_nonneg.
  - rewrite zsum_adjusted_lens, join_split by done. lia.
Qed.

Lemma clip_idem (x xc : string) (n : Z) :
  clip x n = Ok xc → clip xc n = Ok xc.
Proof.
  intros Hx. destruct (clip_prefix x n) as (m & _ & Hclip & Hlen).
  rewrite Hclip in Hx. injection Hx as <-.
  destruct Hlen as [->|Hlen].
  - rewrite take_0. change (join_space []) with "".
    rewrite clip_unfold. unfold words_below, np_cumsum, adjusted_lens. simpl.
    by destruct (_ <? n).
  - apply clip_fits. case_decide; lia.
Qed.

Lemma for_each_inv {A B} (f : A → result B) (X : list A) (Xt : list B) :
  for_each f X = Ok Xt → Forall2 (λ x y, f x = Ok y) X Xt.
Proof.
  revert Xt. induction X as [|x X IH]; intros Xt; cbn [for_each].
  - intros [= <-]. constructor.
  - destruct (f x) as [y|e] eqn:Hy; [|done]. cbn [mbind result_bind].
    destruct (for_each f X) as [Yt|e]; [|done]. cbn [mbind result_bind].
    intros [= <-]. constructor; [done | by apply IH].
Qed.

Lemma for_each_id {A} (f : A → result A) (X : list A) :
  Forall (λ x, f x = Ok x) X → for_each f X = Ok X.
Proof.
  induction 1 as [|x X Hx _ IH]; [done|].
  cbn [for_each]. rewrite Hx. cbn [mbind result_bind]. by rewrite IH.
Qed.

(** Texts of at most [N] characters come back unchanged: [LenClip] cuts
    only what is longer than [N]. *)
Theorem LenClip_short_unchanged (X : list string) (n : Z) :
  Forall (λ x, Z.of_nat (String.length x) ≤ n) X →
  LenClip X n = Ok X.
Proof.
  intros HX. apply for_each_id.
  eapply Forall_impl; [exact HX|]. intros x Hx. by apply clip_fits.
Qed.

Lemma LenClip_short_unchanged_witness :
  LenClip ["ab cd"; ""; "a  b"] 5 = Ok ["ab cd"; ""; "a  b"].
Proof.
  apply LenClip_short_unchanged. repeat constructor; simpl; lia.
Defined.

(** Clipping is idempotent: clipping the clipped texts again, to the same
    length, changes nothing. *)
Theorem LenClip_idempotent (X : list string) (n : Z) :
  ∃ Xc, LenClip X n = Ok Xc ∧ LenClip Xc n = Ok Xc.
Proof.
  destruct (for_each_Ok (λ x, clip x n) (λ _ xc, clip xc n = Ok xc) X)
    as (Xc & HXc & Hidem).
  { intros x. destruct (clip_prefix x n) as (m & _ & Hclip & _).
    eexists. split; [exact Hclip|]. by eapply clip_idem. }
  exists Xc. split; [exact HXc|].
  apply for_each_id. clear HXc.
  induction Hidem; constructor; done.
Qed.

(** ** ZeroOneScale and Standardize *)

(** Over the rationals [ZeroOneScale] maps pixel values of [0, 255] into
    [0, 1], and [Standardize] is that scale stretched to [-1, 1]:
    [Standardize(X) = 2 * ZeroOneScale(X) - 1] for every array. *)
Theorem ZeroOneScale_Standardize (X : list Q) :
  (Forall (λ x, 0 <= x <= 255)%Q X →
   Forall (λ y, 0 <= y <= 1)%Q (ZeroOneScale X)) ∧
  Forall2 (λ a b, a == 2 * b - 1)%Q (Standardize X) (ZeroOneScale X).
Proof.
  unfold ZeroOneScale, Standardize. split.
  - intros HX. apply Forall_fmap. eapply Forall_impl; [exact HX|].
    intros x Hx. simpl in *. unfold Qdiv.
    change (/ 255)%Q with (1 # 255)%Q. lra.
  - apply Forall2_fmap, Forall_Forall2_diag, Forall_forall.
    intros x _. simpl. unfold Qdiv.
    change (/ 127.5)%Q with (10 # 1275)%Q.
    change (/ 255)%Q with (1 # 255)%Q. lra.
Qed.

(** ** Patch and CenterCrop: crops that fit *)

Lemma slice_bound_le (len : nat) (k : Z) : (slice_bound len k ≤ len)%nat.
Proof. unfold slice_bound. destruct (k <? 0); lia. Qed.

Section CropsThatFit.
Context {A : Type} `{PyRandom}.
Implicit Types (x : ndarray A) (X : list (ndarray A)).

(** A slice of a dense array is dense, wherever its bounds are. *)
Lemma slice2_dense x r0 r1 c0 c1 : dense x → dense (slice2 x r0 r1 c0 c1).
Proof.
  unfold dense, slice2. destruct x as [[w h] l]. cbn [shape rows fst snd].
  intros [Hw Hh]. split.
  - rewrite length_fmap, length_take, length_drop.
    pose proof (slice_bound_le w r1). lia.
  - apply Forall_fmap, Forall_take, Forall_drop.
    eapply Forall_impl; [exact Hh|]. intros r Hlen. simpl in *.
    rewrite length_take, length_drop, Hlen.
    pose proof (slice_bound_le h c1). lia.
Qed.

Lemma slice2_rows_fit x i j pw :
  0 ≤ i → i + pw ≤ Z.of_nat (shape x).1 → 0 ≤ pw →
  (shape (slice2 x i (i + pw) j (j + pw))).1 = Z.to_nat pw.
Proof.
  intros Hi Hfit Hpw. unfold slice2. destruct (shape x) as [w h].
  cbn [shape fst] in *. rewrite !slice_bound_inside by lia. lia.
Qed.

(** Entry [(a, b)] of a crop that lies inside the image is the entry of
    the image at the crop's offsets plus [(a, b)]. *)
Lemma slice2_entry x i j pw (a b : nat) :
  0 ≤ i → i + pw ≤ Z.of_nat (shape x).1 →
  0 ≤ j → j + pw ≤ Z.of_nat (shape x).2 →
  Z.of_nat a < pw → Z.of_nat b < pw →
  rows (slice2 x i (i + pw) j (j + pw)) !! a ≫= (.!! b)
  = rows x !! (Z.to_nat i + a)%nat ≫= (.!! (Z.to_nat j + b)%nat).
Proof.
  intros Hi Hifit Hj Hjfit Ha Hb. unfold slice2.
  destruct (shape x) as [w h]. cbn [shape rows fst snd] in *.
  rewrite !slice_bound_inside by lia.
  rewrite list_lookup_fmap, lookup_take_lt, lookup_drop by lia.
  destruct (rows x !! (Z.to_nat i + a)%nat) as [r|]; [|done].
  simpl. by rewrite lookup_take_lt, lookup_drop by lia.
Qed.

Lemma Patch_fits_returns X pw ph s :
  Forall (λ x, pw ≤ Z.of_nat (shape x).1 ∧ ph ≤ Z.of_nat (shape x).2) X →
  ∃ Xt s', Patch X pw ph s = Ok (Xt, s').
Proof.
  intros HX. revert s. induction HX as [|x X [Hw Hh] _ IH]; intros s.
  - by eexists _, _.
  - cbn [Patch]. destruct (shape x) as [w h]. cbn [fst snd] in *.
    destruct (randint_range 0 (Z.of_nat w - pw) s) as (i & s1 & -> & _);
      [lia|]. cbn [mbind result_bind].
    destruct (randint_range 0 (Z.of_nat h - ph) s1) as (j & s2 & -> & _);
      [lia|]. cbn [mbind result_bind].
    destruct (IH s2) as (Xt & s3 & ->). cbn [mbind result_bind].
    by eexists _, _.
Qed.
End CropsThatFit.

(** When the patch is no larger than any of the images, [Patch] returns
    one crop per image; every crop has [pw] rows, has [pw] columns as well
    when [pw] is at most [ph], and is dense when its image is. *)
Theorem Patch_fits {A : Type} `{PyRandom} (X : list (ndarray A))
    (pw ph : Z) (s : rng_state) :
  0 ≤ pw →
  Forall (λ x, pw ≤ Z.of_nat (shape x).1 ∧ ph ≤ Z.of_nat (shape x).2) X →
  ∃ Xt s', Patch X pw ph s = Ok (Xt, s') ∧
           Forall2 (λ x xt,
             (shape xt).1 = Z.to_nat pw ∧
             (pw ≤ ph → (shape xt).2 = Z.to_nat pw) ∧
             (dense x → dense xt)) X Xt.
Proof.
  intros Hpw HX.
  destruct (Patch_fits_returns X pw ph s HX) as (Xt & s' & HP).
  exists Xt, s'. split; [exact HP|].
  eapply Forall2_impl; [exact (Patch_crops _ _ _ _ _ _ HP)|].
  intros x xt (i & j & Hi & Hj & ->). split; [|split].
  - apply slice2_rows_fit; lia.
  - intros Hle. apply slice2_columns_fit; lia.
  - apply slice2_dense.
Qed.

Lemma Patch_fits_witness :
  ∃ Xt s', Patch (H := lcg) [mk_ndarray (2, 2)%nat [[1; 2]; [3; 4]]] 1 2 42
           = Ok (Xt, s') ∧
           Forall2 (λ x xt,
             (shape xt).1 = Z.to_nat 1 ∧
             (1 ≤ 2 → (shape xt).2 = Z.to_nat 1) ∧
             (dense x → dense xt))
             [mk_ndarray (2, 2)%nat [[1; 2]; [3; 4]]] Xt.
Proof.
  apply (Patch_fits (H := lcg)); [lia|].
  repeat constructor; simpl; lia.
Defined.

Lemma round_half_centred (d : Z) :
  0 ≤ d → 0 ≤ round_half d ≤ d ∧ 0 ≤ 2 * round_half d - d ≤ 1.
Proof.
  intros Hd. unfold round_half. destruct (Z.leb_spec 0 d); [|lia].
  pose proof (Z.div_mod (d + 1) 2 ltac:(lia)).
  pose proof (Z.mod_pos_bound (d + 1) 2 ltac:(lia)). lia.
Qed.

(** A crop that fits is centred: [CenterCrop] returns one crop per image,
    taken at offsets that are not negative and leave on the far side a
    margin equal to the offset or one less; the crop has [pw] rows, and
    when [pw = ph] it is the [pw] x [pw] window of the image at these
    offsets. *)
Theorem CenterCrop_centred {A : Type} (X : list (ndarray A)) (pw ph : Z) :
  0 ≤ pw → 0 ≤ ph →
  Forall (λ x, pw ≤ Z.of_nat (shape x).1 ∧ ph ≤ Z.of_nat (shape x).2) X →
  ∃ Xt, CenterCrop X pw ph = Ok Xt ∧
        Forall2 (λ x xt,
          let '(i, j) := center_offsets x pw ph in
          xt = slice2 x i (i + pw) j (j + pw) ∧
          0 ≤ i ∧ 0 ≤ (Z.of_nat (shape x).1 - pw - i) ≤ i ≤
                  (Z.of_nat (shape x).1 - pw - i) + 1 ∧
          0 ≤ j ∧ 0 ≤ (Z.of_nat (shape x).2 - ph - j) ≤ j ≤
                  (Z.of_nat (shape x).2 - ph - j) + 1 ∧
          (shape xt).1 = Z.to_nat pw ∧
          (pw = ph →
           shape xt = (Z.to_nat pw, Z.to_nat pw) ∧
           ∀ a b : nat, Z.of_nat a < pw → Z.of_nat b < pw →
             rows xt !! a ≫= (.!! b)
             = rows x !! (Z.to_nat i + a)%nat ≫= (.!! (Z.to_nat j + b)%nat)))
          X Xt.
Proof.
  intros Hpw Hph HX. eexists. split; [apply CenterCrop_Ok|].
  apply Forall2_fmap_r, Forall_Forall2_diag.
  eapply Forall_impl; [exact HX|]. intros x [Hw Hh].
  unfold compose, center_crop, center_offsets. cbv beta.
  destruct (shape x) as [w h] eqn:Hsh. cbn [fst snd] in *.
  pose proof (round_half_centred (Z.of_nat w - pw) ltac:(lia)) as Hi.
  pose proof (round_half_centred (Z.of_nat h - ph) ltac:(lia)) as Hj.
  set (i := round_half (Z.of_nat w - pw)) in *.
  set (j := round_half (Z.of_nat h - ph)) in *.
  split; [done|]. split; [lia|]. split; [lia|]. split; [lia|].
  split; [lia|]. split.
  { apply slice2_rows_fit; rewrite ?Hsh; cbn [fst]; lia. }
  intros <-. split.
  - apply injective_projections.
    + apply slice2_rows_fit; rewrite ?Hsh; cbn [fst]; lia.
    + apply slice2_columns_fit; rewrite ?Hsh; cbn [snd]; lia.
  - intros a b Ha Hb.
    apply slice2_entry; rewrite ?Hsh; cbn [fst snd]; lia.
Qed.

Lemma CenterCrop_centred_witness :
  ∃ Xt, CenterCrop [mk_ndarray (3, 3)%nat
                      [[0; 1; 2]; [10; 11; 12]; [20; 21; 22]]] 2 2 = Ok Xt ∧
        Xt = [mk_ndarray (2, 2)%nat [[11; 12]; [21; 22]]].
Proof.
  destruct (CenterCrop_centred
              [mk_ndarray (3, 3)%nat [[0; 1; 2]; [10; 11; 12]; [20; 21; 22]]]
              2 2 ltac:(lia) ltac:(lia)) as (Xt & HXt & _).
  { repeat constructor; simpl; lia. }
  exists Xt. split; [exact HXt|].
  vm_compute in HXt. by injection HXt as <-.
Defined.

(** ** Loops that draw from the generator *)

Lemma rng_for_each_Ok {S A B} (f : A → S → result (B * S))
    (P : A → B → Prop) (X : list A) (s : S) :
  Forall (λ x, ∀ s, ∃ y s', f x s = Ok (y, s') ∧ P x y) X →
  ∃ Xt s', rng_for_each f X s = Ok (Xt, s') ∧ Forall2 P X Xt.
Proof.
  intros Hf. revert s. induction Hf as [|x X Hx _ IH]; intros s.
  - exists [], s. by split.
  - destruct (Hx s) as (y & s1 & Hy & HP).
    destruct (IH s1) as (Xt & s2 & HXt & HPs).
    exists (y :: Xt), s2. split; [|by constructor].
    cbn [rng_for_each]. rewrite Hy. cbn [mbind result_bind].
    by rewrite HXt.
Qed.

Lemma rng_for_each_raises {S A B} (f : A → S → result (B * S))
    (e : exn) (X : list A) (x : A) (s : S) :
  x ∈ X →
  (∀ s, f x s = Raise e) →
  (∀ y s e', f y s = Raise e' → e' = e) →
  rng_for_each f X s = Raise e.
Proof.
  intros Hin Hx Hall. revert s.
  induction Hin as [x X|x y X Hin IH]; intros s; cbn [rng_for_each].
  - by rewrite Hx.
  - destruct (f y s) as [[z s1]|e'] eqn:Hy.
    + cbn [mbind result_bind]. by rewrite IH.
    + cbn [mbind result_bind]. f_equal. by eapply Hall.
Qed.

Lemma Qlt_bool_iff (a b : Q) : Qlt_bool a b = true ↔ (a < b)%Q.
Proof.
  unfold Qlt_bool. rewrite negb_true_iff, <- not_true_iff_false, Qle_bool_iff.
  split; [apply Qnot_le_lt | apply Qlt_not_le].
Qed.

(** ** Flips and rotations *)

Section FlipFacts.
Context {A : Type}.
Implicit Types (x : ndarray A) (l : list (list A)).

Lemma concat_reverse_perm l : concat (reverse l) ≡ₚ concat l.
Proof.
  induction l as [|r l IH]; [done|].
  rewrite reverse_cons, concat_app, IH. simpl.
  rewrite app_nil_r. apply Permutation_app_comm.
Qed.

Lemma concat_fmap_reverse_perm l : concat (reverse <$> l) ≡ₚ concat l.
Proof.
  induction l as [|r l IH]; [done|].
  csimpl. by rewrite IH, reverse_Permutation.
Qed.

Lemma np_fliplr_dense x : dense x → dense (np_fliplr x).
Proof.
  unfold dense, np_fliplr. cbn [shape rows]. intros [Hn Hm].
  split; [by rewrite length_fmap|].
  apply Forall_fmap. eapply Forall_impl; [exact Hm|].
  intros r Hr. simpl. by rewrite length_reverse.
Qed.

Lemma np_flipud_dense x : dense x → dense (np_flipud x).
Proof.
  unfold dense, np_flipud. cbn [shape rows]. intros [Hn Hm].
  split; [by rewrite length_reverse | by apply Forall_reverse].
Qed.

Lemma np_fliplr_pixels x : pixels (np_fliplr x) ≡ₚ pixels x.
Proof. apply concat_fmap_reverse_perm. Qed.

Lemma np_flipud_pixels x : pixels (np_flipud x) ≡ₚ pixels x.
Proof. apply concat_reverse_perm. Qed.

(** Splitting column [k] off the columns [k .. k + n] of a list of rows. *)
Lemma concat_split_column l (k n : nat) :
  Forall (λ r, (k < length r)%nat) l →
  concat ((λ r, take (S n) (drop k r)) <$> l)
  ≡ₚ column k l ++ concat ((λ r, take n (drop (S k) r)) <$> l).
Proof.
  induction 1 as [|r l Hr _ IH]; [done|].
  destruct (lookup_lt_is_Some_2 r k Hr) as [a Ha].
  unfold column in *. csimpl. rewrite Ha.
  rewrite (drop_S r a k Ha). csimpl. constructor.
  rewrite IH. rewrite !app_assoc. apply Permutation_app_tail.
  apply Permutation_app_comm.
Qed.

Lemma concat_columns_perm l (k n : nat) :
  Forall (λ r, (k + n ≤ length r)%nat) l →
  concat ((λ i, column i l) <$> seq k n)
  ≡ₚ concat ((λ r, take n (drop k r)) <$> l).
Proof.
  revert k. induction n as [|n IH]; intros k Hl.
  - simpl. induction l as [|r l IHl]; [done|].
    csimpl. apply IHl. by inversion Hl.
  - csimpl. rewrite IH.
    + symmetry. apply concat_split_column.
      eapply Forall_impl; [exact Hl|]. simpl. intros; lia.
    + eapply Forall_impl; [exact Hl|]. simpl. intros; lia.
Qed.

(** Transposing a dense array moves its pixels and loses none. *)
Lemma transpose_pixels x : dense x → pixels (transpose x) ≡ₚ pixels x.
Proof.
  unfold dense, pixels, transpose. destruct x as [[n m] l].
  cbn [shape rows fst snd]. intros [_ Hm].
  rewrite concat_columns_perm.
  - assert ((λ r, take m (drop 0 r)) <$> l = l) as ->; [|done].
    induction Hm as [|r l Hr _ IH]; [done|].
    csimpl. rewrite IH. f_equal. rewrite drop_0, take_ge; [done | lia].
  - eapply Forall_impl; [exact Hm|]. simpl. intros; lia.
Qed.

Lemma np_rot90_cases x (k : Z) :
  0 ≤ k ≤ 3 →
  np_rot90 x k = x ∨ np_rot90 x k = transpose (np_fliplr x) ∨
  np_rot90 x k = np_fliplr (np_flipud x) ∨
  np_rot90 x k = np_fliplr (transpose x).
Proof.
  intros Hk. unfold np_rot90.
  assert (k = 0 ∨ k = 1 ∨ k = 2 ∨ k = 3) as Hcases by lia.
  destruct Hcases as [Hk0|[Hk1|[Hk2|Hk3]]]; subst k; simpl; tauto.
Qed.

(** A quarter turn keeps the shape or swaps its two dimensions, keeps a
    dense image dense, and keeps its pixels. *)
Lemma np_rot90_spec x (k : Z) :
  0 ≤ k ≤ 3 →
  (shape (np_rot90 x k) = shape x ∨
   shape (np_rot90 x k) = ((shape x).2, (shape x).1)) ∧
  (dense x → dense (np_rot90 x k) ∧ pixels (np_rot90 x k) ≡ₚ pixels x).
Proof.
  intros Hk.
  destruct (np_rot90_cases x k Hk) as [Hr|[Hr|[Hr|Hr]]]; rewrite Hr.
  - split; [by left | done].
  - split; [by right|]. intros Hd. split.
    + by apply transpose_dense, np_fliplr_dense.
    + rewrite transpose_pixels by (by apply np_fliplr_dense).
      apply np_fliplr_pixels.
  - split; [by left|]. intros Hd. split.
    + by apply np_fliplr_dense, np_flipud_dense.
    + by rewrite np_fliplr_pixels, np_flipud_pixels.
  - split; [by right|]. intros Hd. split.
    + by apply np_fliplr_dense, transpose_dense.
    + by rewrite np_fliplr_pixels, transpose_pixels.
Qed.
End FlipFacts.

(** [Fliplr] and [FlipHorizontal] are one function under two names.  They
    never fail and return one image per image: the image itself or its
    mirror image, of the same shape and with the same pixels. *)
Theorem Fliplr_mirrors {A : Type} `{PyRandomFloat} (X : list (ndarray A))
    (s : rng_state) :
  ∃ Xt s', Fliplr X s = Ok (Xt, s') ∧
           FlipHorizontal X s = Ok (Xt, s') ∧
           Forall2 (λ x xt,
             (xt = x ∨ xt = np_fliplr x) ∧
             shape xt = shape x ∧
             pixels xt ≡ₚ pixels x ∧
             (dense x → dense xt)) X Xt.
Proof.
  unfold Fliplr, FlipHorizontal.
  match goal with
  | |- ∃ Xt s', rng_for_each ?f X s = _ ∧ _ =>
      destruct (rng_for_each_Ok f
                  (λ x xt, (xt = x ∨ xt = np_fliplr x) ∧
                           shape xt = shape x ∧
                           pixels xt ≡ₚ pixels x ∧
                           (dense x → dense xt)) X s)
        as (Xt & s' & HXt & HP)
  end.
  - apply Forall_forall. intros x _ s0.
    destruct (random s0) as [r s1]. eexists _, _. split; [reflexivity|].
    destruct (Qlt_bool 0.5 r).
    + split; [by right|]. split; [done|].
      split; [apply np_fliplr_pixels | apply np_fliplr_dense].
    + split; [by left | done].
  - by exists Xt, s'.
Qed.

(** [FlipVertical] never fails and returns, for each image, the image or
    the image upside down: same shape, same pixels. *)
Theorem FlipVertical_flips {A : Type} `{PyRandomFloat} (X : list (ndarray A))
    (s : rng_state) :
  ∃ Xt s', FlipVertical X s = Ok (Xt, s') ∧
           Forall2 (λ x xt,
             (xt = x ∨ xt = np_flipud x) ∧
             shape xt = shape x ∧
             pixels xt ≡ₚ pixels x ∧
             (dense x → dense xt)) X Xt.
Proof.
  unfold FlipVertical. apply rng_for_each_Ok.
  apply Forall_forall. intros x _ s0.
  destruct (random s0) as [r s1]. eexists _, _. split; [reflexivity|].
  destruct (Qlt_bool 0.5 r).
  - split; [by right|]. split; [done|].
    split; [apply np_flipud_pixels | apply np_flipud_dense].
  - split; [by left | done].
Qed.

(** [Reflect] never fails and returns, for each image, one of its four
    reflections (none, vertical, horizontal, both): same shape, same
    pixels. *)
Theorem Reflect_reflections {A : Type} `{PyRandomFloat}
    (X : list (ndarray A)) (s : rng_state) :
  ∃ Xt s', Reflect X s = Ok (Xt, s') ∧
           Forall2 (λ x xt,
             (xt = x ∨ xt = np_flipud x ∨ xt = np_fliplr x ∨
              xt = np_fliplr (np_flipud x)) ∧
             shape xt = shape x ∧
             pixels xt ≡ₚ pixels x ∧
             (dense x → dense xt)) X Xt.
Proof.
  unfold Reflect. apply rng_for_each_Ok.
  apply Forall_forall. intros x _ s0.
  destruct (random s0) as [r1 s1]. destruct (random s1) as [r2 s2].
  eexists _, _. split; [reflexivity|].
  destruct (Qlt_bool 0.5 r1), (Qlt_bool 0.5 r2).
  - split; [tauto|]. split; [done|]. split.
    + by rewrite np_fliplr_pixels, np_flipud_pixels.
    + intros Hd. by apply np_fliplr_dense, np_flipud_dense.
  - split; [tauto|]. split; [done|].
    split; [apply np_flipud_pixels | apply np_flipud_dense].
  - split; [tauto|]. split; [done|].
    split; [apply np_fliplr_pixels | apply np_fliplr_dense].
  - split; [tauto | done].
Qed.

(** [Rot90] never fails: the draw [randint(0, 3)] has a range that is not
    empty.  Each image comes back turned by 0 to 3 quarter turns, its shape
    kept or its two dimensions swapped; a dense image stays dense and
    keeps its pixels. *)
Theorem Rot90_turns {A : Type} `{PyRandom} (X : list (ndarray A))
    (s : rng_state) :
  ∃ Xt s', Rot90 X s = Ok (Xt, s') ∧
           Forall2 (λ x xt,
             (∃ k, 0 ≤ k ≤ 3 ∧ xt = np_rot90 x k) ∧
             (shape xt = shape x ∨
              shape xt = ((shape x).2, (shape x).1)) ∧
             (dense x → dense xt ∧ pixels xt ≡ₚ pixels x)) X Xt.
Proof.
  unfold Rot90. apply rng_for_each_Ok.
  apply Forall_forall. intros x _ s0.
  destruct (randint_range 0 3 s0 ltac:(lia)) as (k & s1 & Hk & Hrange).
  exists (np_rot90 x k), s1. rewrite Hk. split; [done|].
  split; [by exists k|]. by apply np_rot90_spec.
Qed.

(** ** SeqDelete and SeqPatch *)

Lemma randint_raises_ValueError `{PyRandom} (a b : Z) (s : rng_state)
    (e : exn) :
  randint a b s = Raise e → e = ValueError.
Proof.
  destruct (Z_lt_le_dec b a) as [Hlt|Hle].
  - rewrite randint_empty by done. by intros [= <-].
  - destruct (randint_range a b s Hle) as (v & s' & -> & _). done.
Qed.

Section SeqFacts.
Context {A : Type} `{PyRandomFloat}.
Implicit Types (x : list A) (X : list (list A)).

Lemma keep_tokens_spec (p_delete : Q) x (s : rng_state) :
  (keep_tokens p_delete x s).1 `sublist_of` x ∧
  ((1 <= p_delete)%Q → (keep_tokens p_delete x s).1 = []) ∧
  ((p_delete < 0)%Q → (keep_tokens p_delete x s).1 = x).
Proof.
  revert s. induction x as [|w x IH]; intros s.
  - split; [done|]. by split.
  - cbn [keep_tokens]. pose proof (random_range s) as [Hr0 Hr1].
    destruct (random s) as [r s1]. cbn [fst] in Hr0, Hr1.
    destruct (IH s1) as (Hsub & Hall & Hnone).
    destruct (keep_tokens p_delete x s1) as [kept s2]. cbn [fst] in *.
    destruct (Qlt_bool p_delete r) eqn:Hcmp.
    + apply Qlt_bool_iff in Hcmp. split; [by constructor|]. split.
      * intros Hp. exfalso. lra.
      * intros Hp. f_equal. by apply Hnone.
    + assert (¬ (p_delete < r)%Q) as Hge.
      { rewrite <- Qlt_bool_iff. by rewrite Hcmp. }
      split; [by constructor|]. split.
      * intros Hp. by apply Hall.
      * intros Hp. exfalso. apply Hge. lra.
Qed.
End SeqFacts.

(** [SeqDelete] never fails; each sequence it returns is the input
    sequence with some tokens left out, the others in their order.  With
    [p_delete] 1 or more every token is deleted, and with a negative
    [p_delete] none is. *)
Theorem SeqDelete_sublists {A : Type} `{PyRandomFloat} (X : list (list A))
    (p_delete : Q) (s : rng_state) :
  ∃ Xt s', SeqDelete X p_delete s = Ok (Xt, s') ∧
           Forall2 (λ x xt,
             xt `sublist_of` x ∧
             ((1 <= p_delete)%Q → xt = []) ∧
             ((p_delete < 0)%Q → xt = x)) X Xt.
Proof.
  unfold SeqDelete. apply rng_for_each_Ok.
  apply Forall_forall. intros x _ s0.
  pose proof (keep_tokens_spec p_delete x s0) as Hspec.
  destruct (keep_tokens p_delete x s0) as [kept s1].
  by exists kept, s1.
Qed.

Lemma py_slice_inside {A} (x : list A) (i n : Z) :
  0 ≤ i → 0 ≤ n → i + n ≤ Z.of_nat (length x) →
  py_slice x i (i + n) = take (Z.to_nat n) (drop (Z.to_nat i) x).
Proof.
  intros Hi Hn Hfit. unfold py_slice.
  rewrite !slice_bound_inside by lia. f_equal. lia.
Qed.

(** When the patch length computed for every sequence lies between 0 and
    the length of the sequence, [SeqPatch] returns one patch per sequence:
    [n] consecutive tokens of the sequence, from some position on. *)
Theorem SeqPatch_infixes {A : Type} `{PyRandom} (X : list (list A))
    (patch_len : nat → Z) (s : rng_state) :
  Forall (λ x, 0 ≤ patch_len (length x) ≤ Z.of_nat (length x)) X →
  ∃ Xt s', SeqPatch X patch_len s = Ok (Xt, s') ∧
           Forall2 (λ x xt,
             ∃ i : nat,
               (i + Z.to_nat (patch_len (length x)) ≤ length x)%nat ∧
               xt = take (Z.to_nat (patch_len (length x))) (drop i x) ∧
               length xt = Z.to_nat (patch_len (length x))) X Xt.
Proof.
  intros HX. unfold SeqPatch. apply rng_for_each_Ok.
  eapply Forall_impl; [exact HX|]. intros x Hn s0. cbv beta in Hn.
  destruct (randint_range 0 (Z.of_nat (length x) - patch_len (length x)) s0
              ltac:(lia)) as (i & s1 & Hi & Hrange).
  rewrite Hi. eexists _, _. split; [reflexivity|].
  exists (Z.to_nat i). rewrite py_slice_inside by lia.
  split; [lia|]. split; [done|].
  rewrite length_take, length_drop. lia.
Qed.

Lemma SeqPatch_infixes_witness :
  ∃ Xt s', SeqPatch (H := lcg) [[1; 2; 3; 4]; [5; 6]]
             (λ l, Z.of_nat l / 2) 42 = Ok (Xt, s') ∧
           length <$> Xt = [2; 1]%nat.
Proof.
  destruct (SeqPatch_infixes (H := lcg) [[1; 2; 3; 4]; [5; 6]]
              (λ l, Z.of_nat l / 2) 42) as (Xt & s' & HXt & HP).
  { constructor; [vm_compute; split; discriminate|].
    constructor; [vm_compute; split; discriminate|]. constructor. }
  exists Xt, s'. split; [exact HXt|].
  inversion HP as [|? xt1 ? Xt1 (i1 & _ & _ & Hl1) HP1]; subst.
  inversion HP1 as [|? xt2 ? Xt2 (i2 & _ & _ & Hl2) HP2]; subst.
  inversion HP2; subst. csimpl. by rewrite Hl1, Hl2.
Defined.

(** A patch longer than its sequence cannot be placed: the range of
    positions is empty and [SeqPatch] raises [ValueError]. *)
Theorem SeqPatch_too_long {A : Type} `{PyRandom} (X : list (list A))
    (patch_len : nat → Z) (s : rng_state) (x : list A) :
  x ∈ X →
  Z.of_nat (length x) < patch_len (length x) →
  SeqPatch X patch_len s = Raise ValueError.
Proof.
  intros Hin Hlong. unfold SeqPatch.
  apply (rng_for_each_raises _ ValueError X x s Hin).
  - intros s0. by rewrite randint_empty by lia.
  - intros y s0 e He.
    destruct (randint 0 (Z.of_nat (length y) - patch_len (length y)) s0)
      as [[i s1]|e'] eqn:Hr; [done|].
    cbn [mbind result_bind] in He. injection He as <-.
    by eapply randint_raises_ValueError.
Qed.

Lemma SeqPatch_too_long_witness :
  SeqPatch (H := lcg) [[1; 2; 3]; [4]] (λ l, 2) 42 = Raise ValueError.
Proof.
  apply (SeqPatch_too_long (H := lcg) [[1; 2; 3]; [4]] (λ l, 2) 42 [4]).
  - right. left.
  - simpl. lia.
Defined.

(** ** ColorShift *)

Lemma rng_for_each_inv {S A B} (f : A → S → result (B * S))
    (P : A → B → Prop) (X : list A) (s : S) (Xt : list B) (s' : S) :
  (∀ x s y s', f x s = Ok (y, s') → P x y) →
  rng_for_each f X s = Ok (Xt, s') → Forall2 P X Xt.
Proof.
  intros Hf. revert s Xt. induction X as [|x X IH]; intros s Xt;
    cbn [rng_for_each].
  - intros [= <- <-]. constructor.
  - destruct (f x s) as [[y s1]|e] eqn:Hy; [|done]. cbn [mbind result_bind].
    destruct (rng_for_each f X s1) as [[Yt s2]|e] eqn:HX; [|done].
    cbn [mbind result_bind]. intros [= <- <-].
    constructor; [by eapply Hf | by eapply IH].
Qed.

Lemma map_cells_compose (f g : list Z → list Z) (x : ndarray3) :
  map_cells f (map_cells g x) = map_cells (f ∘ g) x.
Proof.
  unfold map_cells. cbn [shape3 cells]. f_equal.
  rewrite <- list_fmap_compose. apply list_fmap_ext. intros _ row _.
  simpl. by rewrite <- list_fmap_compose.
Qed.

Lemma map_cells_id (f : list Z → list Z) (x : ndarray3) :
  Forall (Forall (λ px, f px = px)) (cells x) → map_cells f x = x.
Proof.
  destruct x as [sh cs]. unfold map_cells. cbn [shape3 cells].
  intros Hf. f_equal. induction Hf as [|row cs Hrow _ IH]; [done|].
  csimpl. rewrite IH. f_equal.
  induction Hrow as [|px row Hpx _ IHrow]; [done|].
  csimpl. by rewrite Hpx, IHrow.
Qed.

Lemma uint8_clip_range (v : Z) : 0 ≤ uint8 (np_clip 0 255 v) ≤ 255.
Proof. unfold uint8, np_clip. pose proof (Z.mod_pos_bound (Z.min (Z.max v 0) 255) 256). lia. Qed.

Lemma int16_small (v : Z) : -32768 ≤ v < 32768 → int16 v = v.
Proof. intros Hv. unfold int16. rewrite Z.mod_small; lia. Qed.

Lemma uint8_clip_small (v : Z) : 0 ≤ v ≤ 255 → uint8 (np_clip 0 255 v) = v.
Proof. intros Hv. unfold uint8, np_clip. rewrite Z.mod_small; lia. Qed.

Section ColorShiftFacts.
Context `{PyRandomFloat}.

Lemma shift_channel_inv (p : Q) (scale : Z) (c : nat) (x y : ndarray3)
    (s s' : rng_state) :
  shift_channel p scale c x s = Ok (y, s') →
  (c < (shape3 x).2)%nat ∧
  ∃ d, - Z.abs scale ≤ d ≤ Z.abs scale ∧
       ((p <= 0)%Q → d = 0) ∧
       y = map_cells (alter (λ v, int16 (v + d)) c) x.
Proof.
  unfold shift_channel.
  destruct (Nat.ltb_spec c (shape3 x).2) as [Hc|Hc]; [|done].
  pose proof (random_range s) as [Hr0 _].
  destruct (random s) as [r s1]. cbn [fst] in Hr0.
  destruct (randint (- scale) scale s1) as [[d s2]|e] eqn:Hd; [|done].
  cbn [mbind result_bind]. intros [= <- <-]. split; [done|].
  assert (- scale ≤ d ≤ scale) as Hrange.
  { destruct (Z_lt_le_dec scale (- scale)) as [Hlt|Hle].
    - rewrite randint_empty in Hd by done. done.
    - destruct (randint_range (- scale) scale s1 Hle)
        as (d' & s' & Hd' & Hr). rewrite Hd in Hd'. by injection Hd' as <- <-. }
  exists ((if Qlt_bool r p then 1 else 0) * d). split; [|split; [|done]].
  - destruct (Qlt_bool r p); lia.
  - intros Hp. destruct (Qlt_bool r p) eqn:Hcmp; [|lia].
    apply Qlt_bool_iff in Hcmp. exfalso. lra.
Qed.

Lemma shift_channel_IndexError (p : Q) (scale : Z) (c : nat) (x : ndarray3)
    (s : rng_state) :
  ((shape3 x).2 ≤ c)%nat → shift_channel p scale c x s = Raise IndexError.
Proof.
  intros Hc. unfold shift_channel.
  by destruct (Nat.ltb_spec c (shape3 x).2); [lia|].
Qed.

Lemma shift_channel_raises (p : Q) (scale : Z) (c : nat) (x : ndarray3)
    (s : rng_state) (e : exn) :
  0 ≤ scale → shift_channel p scale c x s = Raise e → e = IndexError.
Proof.
  intros Hscale. unfold shift_channel.
  destruct (Nat.ltb_spec c (shape3 x).2) as [Hc|Hc]; [|by intros [= <-]].
  destruct (random s) as [r s1].
  destruct (randint_range (- scale) scale s1 ltac:(lia)) as (d & s2 & -> & _).
  done.
Qed.

Lemma shift_channel_Ok (p : Q) (scale : Z) (c : nat) (x : ndarray3)
    (s : rng_state) :
  0 ≤ scale → (c < (shape3 x).2)%nat →
  ∃ y s', shift_channel p scale c x s = Ok (y, s') ∧ shape3 y = shape3 x.
Proof.
  intros Hscale Hc. unfold shift_channel.
  destruct (Nat.ltb_spec c (shape3 x).2); [|lia].
  destruct (random s) as [r s1].
  destruct (randint_range (- scale) scale s1 ltac:(lia)) as (d & s2 & -> & _).
  by eexists _, _.
Qed.
End ColorShiftFacts.

Lemma shift_pixel_range (d0 d1 d2 : Z) (px : list Z) :
  Forall (λ v, 0 ≤ v ≤ 255) (shift_pixel d0 d1 d2 px).
Proof.
  unfold shift_pixel. apply Forall_fmap, Forall_forall.
  intros v _. apply uint8_clip_range.
Qed.

Lemma fmap_id_on {A} (f : A → A) (l : list A) :
  Forall (λ v, f v = v) l → f <$> l = l.
Proof. induction 1 as [|v l Hv _ IH]; [done|]. csimpl. by rewrite Hv, IH. Qed.

Lemma alter_id_on {A} (f : A → A) (i : nat) (l : list A) :
  Forall (λ v, f v = v) l → alter f i l = l.
Proof.
  intros Hl. revert i. induction Hl as [|v l Hv _ IH]; intros i; [done|].
  destruct i as [|i].
  - change (alter f 0%nat (v :: l)) with (f v :: l). by rewrite Hv.
  - change (alter f (S i) (v :: l)) with (v :: alter f i l). by rewrite IH.
Qed.

Lemma shift_pixel_0 (px : list Z) :
  Forall (λ v, 0 ≤ v ≤ 255) px → shift_pixel 0 0 0 px = px.
Proof.
  intros Hpx. unfold shift_pixel.
  assert (Forall (λ v, int16 (v + 0) = v) px) as Hadd.
  { eapply Forall_impl; [exact Hpx|]. intros v Hv. cbv beta in *.
    rewrite Z.add_0_r. apply int16_small. lia. }
  rewrite (fmap_id_on int16).
  - rewrite (alter_id_on _ 0 px), (alter_id_on _ 1 px),
      (alter_id_on _ 2 px) by done.
    apply fmap_id_on.
    eapply Forall_impl; [exact Hpx|]. intros v Hv. by apply uint8_clip_small.
  - eapply Forall_impl; [exact Hpx|]. intros v Hv. cbv beta in *.
    apply int16_small. lia.
Qed.

Section ColorShiftTurn.
Context `{PyRandomFloat}.

(** One turn of the loop of [ColorShift]. *)
Lemma ColorShift_turn_inv (p : Q) (scale : Z) (x y : ndarray3)
    (s s' : rng_state) :
  ('(x, s) ← shift_channel p scale 0 (astype_int16 x) s;
   '(x, s) ← shift_channel p scale 1 x s;
   '(x, s) ← shift_channel p scale 2 x s;
   Ok (clip_uint8 x, s)) = Ok (y, s') →
  (3 ≤ (shape3 x).2)%nat ∧
  ∃ d0 d1 d2,
    (- Z.abs scale ≤ d0 ≤ Z.abs scale ∧ - Z.abs scale ≤ d1 ≤ Z.abs scale ∧
     - Z.abs scale ≤ d2 ≤ Z.abs scale) ∧
    ((p <= 0)%Q → d0 = 0 ∧ d1 = 0 ∧ d2 = 0) ∧
    y = map_cells (shift_pixel d0 d1 d2) x.
Proof.
  destruct (shift_channel p scale 0 (astype_int16 x) s)
    as [[x0 s0]|e] eqn:E0; [|done]. cbn [mbind result_bind].
  destruct (shift_channel p scale 1 x0 s0) as [[x1 s1]|e] eqn:E1; [|done].
  cbn [mbind result_bind].
  destruct (shift_channel p scale 2 x1 s1) as [[x2 s2]|e] eqn:E2; [|done].
  cbn [mbind result_bind]. intros [= <- <-].
  apply shift_channel_inv in E0 as (_ & d0 & Hd0 & Hp0 & ->).
  apply shift_channel_inv in E1 as (_ & d1 & Hd1 & Hp1 & ->).
  apply shift_channel_inv in E2 as (Hc & d2 & Hd2 & Hp2 & ->).
  split; [exact Hc|]. exists d0, d1, d2. split; [done|]. split; [auto|].
  unfold clip_uint8, astype_int16. by rewrite !map_cells_compose.
Qed.
End ColorShiftTurn.

(** Whenever [ColorShift] returns, each image it returns is the input
    image with one shift per colour channel, of at most [scale], added to
    every pixel and the sums clipped: the image keeps its shape and all
    its entries are values of a [uint8], from 0 to 255. *)
Theorem ColorShift_range `{PyRandomFloat} (X : list ndarray3) (p : Q)
    (scale : Z) (s : rng_state) (Xt : list ndarray3) (s' : rng_state) :
  ColorShift X p scale s = Ok (Xt, s') →
  Forall2 (λ x xt,
    (∃ d0 d1 d2,
       (- Z.abs scale ≤ d0 ≤ Z.abs scale ∧
        - Z.abs scale ≤ d1 ≤ Z.abs scale ∧
        - Z.abs scale ≤ d2 ≤ Z.abs scale) ∧
       xt = map_cells (shift_pixel d0 d1 d2) x) ∧
    shape3 xt = shape3 x ∧
    uint8_image xt) X Xt.
Proof.
  unfold ColorShift. apply rng_for_each_inv.
  intros x s0 y s1 Hturn.
  apply ColorShift_turn_inv in Hturn as (_ & d0 & d1 & d2 & Hd & _ & ->).
  split; [by exists d0, d1, d2|]. split; [done|].
  unfold uint8_image, map_cells. cbn [cells].
  apply Forall_fmap, Forall_forall. intros row _.
  apply Forall_fmap, Forall_forall. intros px _.
  apply shift_pixel_range.
Qed.

Lemma ColorShift_range_witness :
  Forall2 (λ x xt, shape3 xt = shape3 x ∧ uint8_image xt)
    [mk_ndarray3 (1, 2, 3)%nat [[[0; 100; 250]; [10; 20; 30]]]]
    [mk_ndarray3 (1, 2, 3)%nat [[[0; 113; 253]; [7; 33; 33]]]].
Proof.
  eapply Forall2_impl.
  - apply (ColorShift_range (H0 := lcg_float)
             [mk_ndarray3 (1, 2, 3)%nat [[[0; 100; 250]; [10; 20; 30]]]]
             1 20 12345 _ 1051550459).
    vm_compute. reflexivity.
  - intros x xt (_ & Hshape & Hrange). by split.
Defined.

Section ColorShiftErrors.
Context `{PyRandomFloat}.

Lemma astype_int16_shape (x : ndarray3) :
  shape3 (astype_int16 x) = shape3 x.
Proof. reflexivity. Qed.

Lemma ColorShift_turn_IndexError (p : Q) (scale : Z) (x : ndarray3)
    (s : rng_state) :
  0 ≤ scale → ((shape3 x).2 < 3)%nat →
  ('(x, s) ← shift_channel p scale 0 (astype_int16 x) s;
   '(x, s) ← shift_channel p scale 1 x s;
   '(x, s) ← shift_channel p scale 2 x s;
   Ok (clip_uint8 x, s)) = Raise IndexError.
Proof.
  intros Hscale Hc.
  destruct (le_lt_dec (shape3 x).2 0) as [Hc0|Hc0].
  { by rewrite shift_channel_IndexError. }
  destruct (shift_channel_Ok p scale 0 (astype_int16 x) s Hscale Hc0)
    as (x0 & s0 & -> & Hs0). cbn [mbind result_bind].
  rewrite astype_int16_shape in Hs0.
  destruct (le_lt_dec (shape3 x0).2 1) as [Hc1|Hc1].
  { by rewrite shift_channel_IndexError. }
  destruct (shift_channel_Ok p scale 1 x0 s0 Hscale Hc1)
    as (x1 & s1 & -> & Hs1). cbn [mbind result_bind].
  rewrite shift_channel_IndexError; [done|]. rewrite Hs1, Hs0. lia.
Qed.

Lemma ColorShift_turn_raises (p : Q) (scale : Z) (x : ndarray3)
    (s : rng_state) (e : exn) :
  0 ≤ scale →
  ('(x, s) ← shift_channel p scale 0 (astype_int16 x) s;
   '(x, s) ← shift_channel p scale 1 x s;
   '(x, s) ← shift_channel p scale 2 x s;
   Ok (clip_uint8 x, s)) = Raise e → e = IndexError.
Proof.
  intros Hscale.
  destruct (shift_channel p scale 0 (astype_int16 x) s)
    as [[x0 s0]|e0] eqn:E0; cbn [mbind result_bind].
  2:{ intros [= <-]. by eapply shift_channel_raises. }
  destruct (shift_channel p scale 1 x0 s0) as [[x1 s1]|e1] eqn:E1;
    cbn [mbind result_bind].
  2:{ intros [= <-]. by eapply shift_channel_raises. }
  destruct (shift_channel p scale 2 x1 s1) as [[x2 s2]|e2] eqn:E2;
    cbn [mbind result_bind]; [done|].
  intros [= <-]. by eapply shift_channel_raises.
Qed.

Lemma ColorShift_turn_Ok (p : Q) (scale : Z) (x : ndarray3) (s : rng_state) :
  0 ≤ scale → (3 ≤ (shape3 x).2)%nat →
  ∃ y s',
    ('(x, s) ← shift_channel p scale 0 (astype_int16 x) s;
     '(x, s) ← shift_channel p scale 1 x s;
     '(x, s) ← shift_channel p scale 2 x s;
     Ok (clip_uint8 x, s)) = Ok (y, s').
Proof.
  intros Hscale Hc.
  destruct (shift_channel_Ok p scale 0 (astype_int16 x) s Hscale)
    as (x0 & s0 & -> & Hs0); [rewrite astype_int16_shape; lia|].
  rewrite astype_int16_shape in Hs0. cbn [mbind result_bind].
  destruct (shift_channel_Ok p scale 1 x0 s0 Hscale)
    as (x1 & s1 & -> & Hs1); [rewrite Hs0; lia|]. cbn [mbind result_bind].
  destruct (shift_channel_Ok p scale 2 x1 s1 Hscale)
    as (x2 & s2 & -> & Hs2); [rewrite Hs1, Hs0; lia|].
  cbn [mbind result_bind]. by eexists _, _.
Qed.
End ColorShiftErrors.

(** An image with fewer than three channels makes [ColorShift] raise
    [IndexError] (the scale not being negative): the channels 0, 1 and 2
    are all indexed. *)
Theorem ColorShift_needs_three_channels `{PyRandomFloat} (X : list ndarray3)
    (p : Q) (scale : Z) (s : rng_state) (x : ndarray3) :
  0 ≤ scale →
  x ∈ X →
  ((shape3 x).2 < 3)%nat →
  ColorShift X p scale s = Raise IndexError.
Proof.
  intros Hscale Hin Hc. unfold ColorShift.
  apply (rng_for_each_raises _ IndexError X x s Hin).
  - intros s0. by apply ColorShift_turn_IndexError.
  - intros y s0 e. by apply ColorShift_turn_raises.
Qed.

Lemma ColorShift_needs_three_channels_witness :
  ColorShift (H0 := lcg_float)
    [mk_ndarray3 (1, 2, 2)%nat [[[0; 100]; [10; 20]]]] 1 20 12345
  = Raise IndexError.
Proof.
  apply (ColorShift_needs_three_channels (H0 := lcg_float) _ 1 20 12345
           (mk_ndarray3 (1, 2, 2)%nat [[[0; 100]; [10; 20]]])).
  - lia.
  - by left.
  - simpl. lia.
Defined.

(** With a probability [p] that is not positive no channel is ever
    shifted: [ColorShift] returns [uint8] images with three channels or
    more exactly as they are. *)
Theorem ColorShift_never_shifts `{PyRandomFloat} (X : list ndarray3)
    (p : Q) (scale : Z) (s : rng_state) :
  (p <= 0)%Q →
  0 ≤ scale →
  Forall (λ x, (3 ≤ (shape3 x).2)%nat ∧ uint8_image x) X →
  ∃ s', ColorShift X p scale s = Ok (X, s').
Proof.
  intros Hp Hscale HX. unfold ColorShift.
  match goal with
  | |- ∃ s', rng_for_each ?f X s = _ =>
      destruct (rng_for_each_Ok f (λ x xt, xt = x) X s)
        as (Xt & s' & HXt & Hid)
  end.
  - eapply Forall_impl; [exact HX|]. intros x [Hc Hx] s0.
    destruct (ColorShift_turn_Ok p scale x s0 Hscale Hc) as (y & s1 & Hy).
    exists y, s1. split; [exact Hy|].
    apply ColorShift_turn_inv in Hy as (_ & d0 & d1 & d2 & _ & Hd & ->).
    destruct (Hd Hp) as (-> & -> & ->).
    apply map_cells_id.
    eapply Forall_impl; [exact Hx|]. intros row Hrow.
    eapply Forall_impl; [exact Hrow|]. intros px Hpx.
    by apply shift_pixel_0.
  - exists s'. rewrite HXt. do 2 f_equal.
    clear HXt HX. induction Hid as [|x xt X' Xt' Hx _ IH]; congruence.
Qed.

Lemma ColorShift_never_shifts_witness :
  ∃ s', ColorShift (H0 := lcg_float)
          [mk_ndarray3 (1, 2, 3)%nat [[[0; 100; 250]; [10; 20; 30]]]]
          0 20 12345
        = Ok ([mk_ndarray3 (1, 2, 3)%nat [[[0; 100; 250]; [10; 20; 30]]]], s').
Proof.
  apply (ColorShift_never_shifts (H0 := lcg_float)).
  - discriminate.
  - lia.
  - constructor; [|constructor]. split; [simpl; lia|].
    unfold uint8_image. cbn [cells].
    repeat (first [apply List.Forall_nil | apply List.Forall_cons]); lia.
Defined.

(** ** StringToCharacterCNNRep *)

(** [StringToCharacterCNNRep] calls the unbound name [one_hot] as well: on
    every batch that is not empty it raises [NameError].  On an empty
    batch the loop does not run, and the function returns the array
    without entries of shape (0, 1, max_len, classes), or raises
    [ValueError] when [max_len] is negative. *)
Theorem StringToCharacterCNNRep_raises (X : list string) (max_len : Z)
    (encoder : gmap Ascii.ascii Z) :
  StringToCharacterCNNRep X max_len encoder
  = match X with
    | _ :: _ => Raise NameError
    | [] => if max_len <? 0 then Raise ValueError
            else Ok (mk_ndarray4
                       (0%nat, 1%nat, Z.to_nat max_len, S (size encoder)) [])
    end.
Proof.
  unfold StringToCharacterCNNRep, StringToCharacterCNNRep_calling.
  destruct X as [|x X].
  - cbn [for_each mbind result_bind]. unfold stack_reshape_to.
    by destruct (max_len <? 0).
  - cbn [for_each mbind result_bind].
    by rewrite call_one_hot_NameError.
Qed.
